(** * A deterministic single-tape Turing-machine interpreter

    Shallow embedding of [turing_machine.py]: the classes [Tape],
    [TransitionFunction] and [TuringMachine], followed by the properties of
    the interpreter engine.

    Conventions of the embedding.
    - A Python [str] is a [string]; iterating over a [str] yields its
      one-character strings ([chars]).  Python [int] is [Z].
    - A Python [set] of [str] is a [gset string]; a [dict] is a [gmap].
    - A method that mutates [self] is a program [prog S A]: a function from
      the object's state before the call to an [outcome], which is either a
      returned value or a raised exception, in both cases together with the
      object's state at that moment.  A raised exception therefore keeps
      every mutation performed before the [raise].
    - Console input and output ([print], [input]) are not modelled; they do
      not influence the control flow of the engine. *)

From stdpp Require Import base numbers option list gmap sets strings.

Local Open Scope string_scope.
Local Open Scope Z_scope.

(** ** Exceptions *)

(** Which of the four checks of [TuringMachine.__init__] failed. *)
Inductive definition_check : Type :=
| InitialStateNotInStates
| AcceptStatesNotInStates
| InputAlphabetNotInTapeAlphabet
| BlankNotInTapeAlphabet.

(** One constructor per kind of [raise] in the source. *)
Inductive exn : Type :=
| InvalidDirection (direction : string)
    (* ValueError, Tape.move and TransitionFunction.add_transition *)
| InvalidDefinition (check : definition_check)
    (* ValueError, TuringMachine.__init__ *)
| InvalidSymbol (symbol : string)
    (* ValueError, TuringMachine.reset *)
| NotInitialized
    (* RuntimeError, TuringMachine.step *)
| AttributeError
    (* a method of [self.tape] called while [self.tape is None] *)
| OutOfFuel.
    (* not a Python exception: the fuel of [run_loop] ran out *)

(** ** Programs over a mutable object *)

Inductive outcome (S A : Type) : Type :=
| Returns (a : A) (s : S)
| Raises (e : exn) (s : S).
Arguments Returns {S A} a s.
Arguments Raises {S A} e s.

Definition prog (S A : Type) : Type := S → outcome S A.

Definition ret {S A} (a : A) : prog S A := λ s, Returns a s.

Definition bind {S A B} (c : prog S A) (k : A → prog S B) : prog S B :=
  λ s, match c s with
       | Returns a s' => k a s'
       | Raises e s' => Raises e s'
       end.

Definition raise {S A} (e : exn) : prog S A := λ s, Raises e s.
Definition get {S} : prog S S := λ s, Returns s s.
Definition modify {S} (f : S → S) : prog S unit := λ s, Returns tt (f s).

Notation "'let*' x := c 'in' k" := (bind c (λ x, k))
  (at level 10, x pattern, c at level 100, k at level 200).
Notation "c >> k" := (bind c (λ _, k))
  (at level 100, k at level 200, right associativity).

(** The state in which a call ends, whether it returned or raised. *)
Definition final_state {S A} (o : outcome S A) : S :=
  match o with Returns _ s => s | Raises _ s => s end.

(** [for x in l: body x] *)
Fixpoint for_each {S A} (l : list A) (body : A → prog S unit) : prog S unit :=
  match l with
  | [] => ret tt
  | x :: l => body x >> for_each l body
  end.

(** [[f x for x in l]], evaluated from left to right *)
Fixpoint map_each {S A B} (l : list A) (f : A → prog S B) : prog S (list B) :=
  match l with
  | [] => ret []
  | x :: l => let* y := f x in let* ys := map_each l f in ret (y :: ys)
  end.

(** ** Python strings *)

(** The characters of a [str], each one a [str] of length one. *)
Definition chars (s : string) : list string :=
  (λ c, String c EmptyString) <$> String.list_ascii_of_string s.

(** [len(s)] *)
Definition len (s : string) : Z := Z.of_nat (String.length s).

(** [''.join(l)] *)
Definition join (l : list string) : string := foldr String.append "" l.

(** [s * n]; empty when [n <= 0] *)
Definition str_mul (s : string) (n : Z) : string :=
  join (replicate (Z.to_nat n) s).

(** [enumerate(l)], counting from [i] *)
Fixpoint enumerate {A} (i : Z) (l : list A) : list (Z * A) :=
  match l with
  | [] => []
  | x :: l => (i, x) :: enumerate (i + 1) l
  end.

(** [range(a, b)] *)
Definition range (a b : Z) : list Z := seqZ a (b - a).

Definition newline : string := String (Ascii.ascii_of_nat 10) EmptyString.

(** ** class Tape *)

Module Tape.

Record t : Type := mk {
  blank_symbol : string;
  tape : gmap Z string;       (* defaultdict(lambda: blank_symbol) *)
  head_position : Z;
  leftmost : Z;
  rightmost : Z
}.

Definition set_tape (d : gmap Z string) (self : t) : t :=
  mk (blank_symbol self) d (head_position self) (leftmost self) (rightmost self).
Definition set_head_position (h : Z) (self : t) : t :=
  mk (blank_symbol self) (tape self) h (leftmost self) (rightmost self).
Definition set_leftmost (l : Z) (self : t) : t :=
  mk (blank_symbol self) (tape self) (head_position self) l (rightmost self).
Definition set_rightmost (r : Z) (self : t) : t :=
  mk (blank_symbol self) (tape self) (head_position self) (leftmost self) r.

(** [Tape(input_string, blank_symbol)] *)
Definition __init__ (input_string : string) (blank_symbol : string) : t :=
  {| blank_symbol := blank_symbol;
     tape := foldl (λ d p, <[p.1 := p.2]> d) ∅ (enumerate 0 (chars input_string));
     head_position := 0;
     leftmost := 0;
     rightmost := if decide (input_string = "") then 0 else len input_string - 1 |}.

(** [self.tape[i]] on the [defaultdict]: a missing key is first stored
    with the blank symbol, then returned. *)
Definition getitem (i : Z) : prog t string :=
  λ self, match tape self !! i with
          | Some symbol => Returns symbol self
          | None => Returns (blank_symbol self)
                      (set_tape (<[i := blank_symbol self]> (tape self)) self)
          end.

Definition read : prog t string :=
  let* self := get in getitem (head_position self).

Definition write (symbol : string) : prog t unit :=
  modify (λ self, set_tape (<[head_position self := symbol]> (tape self)) self) >>
  modify (λ self, set_leftmost (leftmost self `min` head_position self) self) >>
  modify (λ self, set_rightmost (rightmost self `max` head_position self) self).

Definition move (direction : string) : prog t unit :=
  (if decide (direction = "L") then
     modify (λ self, set_head_position (head_position self - 1) self)
   else if decide (direction = "R") then
     modify (λ self, set_head_position (head_position self + 1) self)
   else raise (InvalidDirection direction)) >>
  modify (λ self, set_leftmost (leftmost self `min` head_position self) self) >>
  modify (λ self, set_rightmost (rightmost self `max` head_position self) self).

Definition get_tape_string (context : Z) : prog t string :=
  let* self := get in
  let start := leftmost self `min` (head_position self - context) in
  let end_ := rightmost self `max` (head_position self + context) in
  let* symbols := map_each (range start (end_ + 1)) getitem in
  let tape_content := join symbols in
  let* self := get in
  let head_indicator := str_mul " " (head_position self - start) +:+ "^" in
  ret ("Cinta: " +:+ tape_content +:+ newline +:+ "       " +:+ head_indicator).

(** The symbol at position [i] as the tape presents it: the stored one,
    the blank symbol where nothing is stored. *)
Definition cell (self : t) (i : Z) : string :=
  default (blank_symbol self) (tape self !! i).

End Tape.

(** ** class TransitionFunction *)

Module TransitionFunction.

Record t : Type := mk {
  transitions : gmap (string * string) (string * string * string)
}.

Definition __init__ : t := {| transitions := ∅ |}.

Definition add_transition (current_state read_symbol
                           next_state write_symbol direction : string)
  : prog t unit :=
  (if bool_decide (direction ∉ ["L"; "R"])
   then raise (InvalidDirection direction) else ret tt) >>
  modify (λ self,
    mk (<[(current_state, read_symbol) := (next_state, write_symbol, direction)]>
          (transitions self))).

(** [dict.get]: [None] when the key is absent; the table is not changed. *)
Definition get_transition (self : t) (state symbol : string)
  : option (string * string * string) :=
  transitions self !! (state, symbol).

Definition has_transition (self : t) (state symbol : string) : bool :=
  bool_decide (is_Some (transitions self !! (state, symbol))).

End TransitionFunction.

(** ** class TuringMachine *)

Module TuringMachine.

Record t : Type := mk {
  states : gset string;
  input_alphabet : gset string;
  tape_alphabet : gset string;
  transition_function : TransitionFunction.t;
  initial_state : string;
  blank_symbol : string;
  accept_states : gset string;
  current_state : string;
  tape : option Tape.t;
  step_count : Z;
  execution_history : list (string * Z * string)
}.

Definition set_current_state (q : string) (self : t) : t :=
  mk (states self) (input_alphabet self) (tape_alphabet self)
     (transition_function self) (initial_state self) (blank_symbol self)
     (accept_states self) q (tape self) (step_count self)
     (execution_history self).
Definition set_tape (tp : option Tape.t) (self : t) : t :=
  mk (states self) (input_alphabet self) (tape_alphabet self)
     (transition_function self) (initial_state self) (blank_symbol self)
     (accept_states self) (current_state self) tp (step_count self)
     (execution_history self).
Definition set_step_count (n : Z) (self : t) : t :=
  mk (states self) (input_alphabet self) (tape_alphabet self)
     (transition_function self) (initial_state self) (blank_symbol self)
     (accept_states self) (current_state self) (tape self) n
     (execution_history self).
Definition set_execution_history (h : list (string * Z * string)) (self : t) : t :=
  mk (states self) (input_alphabet self) (tape_alphabet self)
     (transition_function self) (initial_state self) (blank_symbol self)
     (accept_states self) (current_state self) (tape self) (step_count self) h.

(** [TuringMachine(...)]: the new object, or the exception raised by the
    first check that fails. *)
Definition __init__ (states input_alphabet tape_alphabet : gset string)
    (transition_function : TransitionFunction.t)
    (initial_state blank_symbol : string) (accept_states : gset string)
  : exn + t :=
  if bool_decide (initial_state ∉ states) then
    inl (InvalidDefinition InitialStateNotInStates)
  else if negb (bool_decide (accept_states ⊆ states)) then
    inl (InvalidDefinition AcceptStatesNotInStates)
  else if negb (bool_decide (input_alphabet ⊆ tape_alphabet)) then
    inl (InvalidDefinition InputAlphabetNotInTapeAlphabet)
  else if bool_decide (blank_symbol ∉ tape_alphabet) then
    inl (InvalidDefinition BlankNotInTapeAlphabet)
  else
    inr {| states := states;
           input_alphabet := input_alphabet;
           tape_alphabet := tape_alphabet;
           transition_function := transition_function;
           initial_state := initial_state;
           blank_symbol := blank_symbol;
           accept_states := accept_states;
           current_state := initial_state;
           tape := None;
           step_count := 0;
           execution_history := [] |}.

(** Runs a method of [self.tape]; on [None] the attribute lookup fails. *)
Definition on_tape {A} (c : prog Tape.t A) : prog t A :=
  λ self, match tape self with
          | None => Raises AttributeError self
          | Some tp =>
              match c tp with
              | Returns a tp' => Returns a (set_tape (Some tp') self)
              | Raises e tp' => Raises e (set_tape (Some tp') self)
              end
          end.

(** A [Tape] object is always truthy, so [if self.tape:] tests for [None]. *)
Definition _save_configuration : prog t unit :=
  let* self := get in
  match tape self with
  | Some tp =>
      let* rendered := on_tape (Tape.get_tape_string 10) in
      modify (λ self,
        set_execution_history
          (execution_history self ++
             [(current_state self, Tape.head_position tp, rendered)]) self)
  | None => ret tt
  end.

Definition reset (input_string : string) : prog t unit :=
  for_each (chars input_string) (λ symbol,
    let* self := get in
    if bool_decide (symbol ∉ input_alphabet self)
    then raise (InvalidSymbol symbol) else ret tt) >>
  modify (λ self,
    set_tape (Some (Tape.__init__ input_string (blank_symbol self))) self) >>
  modify (λ self, set_current_state (initial_state self) self) >>
  modify (set_step_count 0) >>
  modify (set_execution_history []) >>
  _save_configuration.

Definition step : prog t bool :=
  let* self := get in
  match tape self with
  | None => raise NotInitialized
  | Some _ =>
      if bool_decide (current_state self ∈ accept_states self) then ret false
      else
        let* current_symbol := on_tape Tape.read in
        match TransitionFunction.get_transition (transition_function self)
                (current_state self) current_symbol with
        | None => ret false
        | Some (next_state, write_symbol, direction) =>
            on_tape (Tape.write write_symbol) >>
            on_tape (Tape.move direction) >>
            modify (set_current_state next_state) >>
            modify (λ self, set_step_count (step_count self + 1) self) >>
            _save_configuration >>
            ret true
        end
  end.

(** The [while] loop of [run] (with [step_by_step] false, its branches
    only print and prompt).  Each iteration that does not leave the loop
    has increased [step_count], so [max_steps - step_count] iterations
    suffice; [fuel] bounds the iterations and [OutOfFuel] marks a bound
    that was too small.  The value returned is the number of calls of
    [step] made, which the source does not compute. *)
Fixpoint run_loop (fuel : nat) (max_steps : Z) : prog t nat :=
  let* self := get in
  if bool_decide (step_count self < max_steps) then
    match fuel with
    | O => raise OutOfFuel
    | S fuel =>
        let* can_continue := step in
        if negb can_continue then ret 1%nat
        else let* calls := run_loop fuel max_steps in ret (S calls)
    end
  else ret 0%nat.

Definition run (input_string : string) (max_steps : Z) : prog t nat :=
  reset input_string >>
  run_loop (Z.to_nat max_steps) max_steps.

Definition get_result : prog t string :=
  let* self := get in
  if bool_decide (current_state self ∈ accept_states self)
  then ret "Acepta" else ret "Rechaza".

End TuringMachine.

(** ** The machine for "equal number of 0s and 1s" *)

Definition balanced_01_transitions : list (string * string * string * string * string) :=
  [ ("q0", "0", "q1", "X", "R"); ("q0", "Y", "q0", "Y", "R");
    ("q0", "_", "q4", "_", "L");
    ("q1", "0", "q1", "0", "R"); ("q1", "1", "q2", "Y", "L");
    ("q1", "Y", "q1", "Y", "R"); ("q1", "_", "q_reject", "_", "R");
    ("q2", "0", "q2", "0", "L"); ("q2", "Y", "q2", "Y", "L");
    ("q2", "X", "q2", "X", "L"); ("q2", "_", "q0", "_", "R");
    ("q4", "X", "q4", "X", "L"); ("q4", "Y", "q4", "Y", "L");
    ("q4", "_", "q_accept", "_", "R"); ("q4", "0", "q_reject", "0", "R");
    ("q4", "1", "q_reject", "1", "R") ].

(** A table built the way the source builds it: [add_transition] on every
    entry, starting from the empty [TransitionFunction()]. *)
Definition build_table (entries : list (string * string * string * string * string))
  : outcome TransitionFunction.t unit :=
  for_each entries (λ '(q, a, q', b, d),
    TransitionFunction.add_transition q a q' b d) TransitionFunction.__init__.

Definition create_balanced_01_machine : exn + TuringMachine.t :=
  TuringMachine.__init__
    {[ "q0"; "q1"; "q2"; "q3"; "q4"; "q_accept"; "q_reject" ]}
    {[ "0"; "1" ]}
    {[ "0"; "1"; "X"; "Y"; "_" ]}
    (final_state (build_table balanced_01_transitions))
    "q0" "_" {[ "q_accept" ]}.

(** * Vocabulary of the properties *)

Module TapeView.
Import Tape.

(** Two tape objects that no method can tell apart: the same symbol at
    every position, the same head and the same recorded bounds.  The
    underlying dictionaries may differ in which blank cells they store. *)
Definition same (a b : t) : Prop :=
  blank_symbol a = blank_symbol b ∧ head_position a = head_position b ∧
  leftmost a = leftmost b ∧ rightmost a = rightmost b ∧
  ∀ i, cell a i = cell b i.

(** [b] is [a] with possibly more blank cells stored. *)
Definition extends (a b : t) : Prop :=
  same a b ∧ ∀ i, is_Some (tape a !! i) → is_Some (tape b !! i).

(** What [get_tape_string] returns, as a function of the tape's view. *)
Definition rendering (context : Z) (self : t) : string :=
  let start := leftmost self `min` (head_position self - context) in
  let end_ := rightmost self `max` (head_position self + context) in
  "Cinta: " +:+ join (cell self <$> range start (end_ + 1)) +:+ newline
    +:+ "       " +:+ str_mul " " (head_position self - start) +:+ "^".

End TapeView.

Module MachineView.
Import TuringMachine.
Import TapeView.

(** The machine [self] with its run state replaced. *)
Definition with_run_state (self : t) (q : string) (tp : option Tape.t)
    (n : Z) (h : list (string * Z * string)) : t :=
  mk (states self) (input_alphabet self) (tape_alphabet self)
     (transition_function self) (initial_state self) (blank_symbol self)
     (accept_states self) q tp n h.

(** The key of the head's cell is stored in the tape's dictionary. *)
Definition head_stored (self : t) : Prop :=
  ∃ tp, tape self = Some tp ∧ is_Some (Tape.tape tp !! Tape.head_position tp).

(** The validation loop of [reset] *)
Definition check_symbol (symbol : string) : prog t unit :=
  let* self := get in
  if bool_decide (symbol ∉ input_alphabet self)
  then raise (InvalidSymbol symbol) else ret tt.

(** The tape after a transition [(_, write_symbol, direction)] fired,
    before the configuration is saved. *)
Definition fired_tape (tp : Tape.t) (write_symbol : string) (delta : Z) : Tape.t :=
  let h := Tape.head_position tp in
  {| Tape.blank_symbol := Tape.blank_symbol tp;
     Tape.tape := <[h := write_symbol]> (Tape.tape tp);
     Tape.head_position := h + delta;
     Tape.leftmost := (Tape.leftmost tp `min` h) `min` (h + delta);
     Tape.rightmost := (Tape.rightmost tp `max` h) `max` (h + delta) |}.

(** [-1] for ["L"], [+1] for ["R"] *)
Definition delta_of (direction : string) : Z :=
  if decide (direction = "L") then -1 else 1.

(** Every call of [step] is one of five cases. *)
Inductive step_spec (self : t) : outcome t bool → Prop :=
| step_uninitialized :
    tape self = None →
    step_spec self (Raises NotInitialized self)
| step_accepted tp :
    tape self = Some tp →
    current_state self ∈ accept_states self →
    step_spec self (Returns false self)
| step_no_transition tp tp' :
    tape self = Some tp →
    current_state self ∉ accept_states self →
    TransitionFunction.get_transition (transition_function self)
      (current_state self) (Tape.cell tp (Tape.head_position tp)) = None →
    extends tp tp' →
    is_Some (Tape.tape tp' !! Tape.head_position tp') →
    (is_Some (Tape.tape tp !! Tape.head_position tp) → tp' = tp) →
    step_spec self (Returns false (set_tape (Some tp') self))
| step_transition tp tp' next_state write_symbol direction :
    tape self = Some tp →
    current_state self ∉ accept_states self →
    TransitionFunction.get_transition (transition_function self)
      (current_state self) (Tape.cell tp (Tape.head_position tp))
      = Some (next_state, write_symbol, direction) →
    direction = "L" ∨ direction = "R" →
    extends (fired_tape tp write_symbol (delta_of direction)) tp' →
    is_Some (Tape.tape tp' !! Tape.head_position tp') →
    step_spec self
      (Returns true
         (with_run_state self next_state (Some tp') (step_count self + 1)
            (execution_history self ++
               [(next_state,
                 Tape.head_position (fired_tape tp write_symbol (delta_of direction)),
                 rendering 10 (fired_tape tp write_symbol (delta_of direction)))])))
| step_invalid_direction tp tp' next_state write_symbol direction :
    tape self = Some tp →
    current_state self ∉ accept_states self →
    TransitionFunction.get_transition (transition_function self)
      (current_state self) (Tape.cell tp (Tape.head_position tp))
      = Some (next_state, write_symbol, direction) →
    direction ≠ "L" → direction ≠ "R" →
    is_Some (Tape.tape tp' !! Tape.head_position tp') →
    step_spec self (Raises (InvalidDirection direction) (set_tape (Some tp') self)).

(** The state after [n] calls of [step], whatever each call returned. *)
Definition after_steps (n : nat) (self : t) : t :=
  Nat.iter n (λ self, final_state (step self)) self.

(** The tape of an initialized machine. *)
Definition tape_of (self : t) : Tape.t :=
  default (Tape.__init__ "" "") (tape self).

(** The object that a successful construction creates. *)
Definition constructed (states input_alphabet tape_alphabet : gset string)
    (transition_function : TransitionFunction.t)
    (initial_state blank_symbol : string) (accept_states : gset string) : t :=
  mk states input_alphabet tape_alphabet transition_function initial_state
     blank_symbol accept_states initial_state None 0 [].

(** A call of [step] on [self] would make progress. *)
Definition makes_progress (self : t) : Prop :=
  ∃ self', step self = Returns true self'.

(** No configuration of the run that starts in [self] is a halting one:
    every call of [step] makes progress. *)
Definition never_halts (self : t) : Prop :=
  ∀ k, makes_progress (after_steps k self).

End MachineView.

(** The directions in a table built with [add_transition] are ["L"] or
    ["R"]. *)
Definition directions_valid (table : TransitionFunction.t) : Prop :=
  ∀ key next_state write_symbol direction,
    TransitionFunction.transitions table !! key
      = Some (next_state, write_symbol, direction) →
    direction = "L" ∨ direction = "R".

(** The recorded bounds include the head. *)
Definition bounds_include_head (tp : Tape.t) : Prop :=
  Tape.leftmost tp ≤ Tape.head_position tp ≤ Tape.rightmost tp.

(** ** Example machines *)

Import TuringMachine TapeView MachineView.

(** The machine of [create_balanced_01_machine], as constructed. *)
Definition balanced_01 : t :=
  mk {[ "q0"; "q1"; "q2"; "q3"; "q4"; "q_accept"; "q_reject" ]}
     {[ "0"; "1" ]} {[ "0"; "1"; "X"; "Y"; "_" ]}
     (final_state (build_table balanced_01_transitions))
     "q0" "_" {[ "q_accept" ]} "q0" None 0 [].

(** A machine whose only state is accepting and has an outgoing transition. *)
Definition accept_loop : t :=
  mk {[ "qa" ]} {[ "0" ]} {[ "0"; "_" ]}
     (final_state (build_table [("qa", "_", "qa", "_", "R")]))
     "qa" "_" {[ "qa" ]} "qa" None 0 [].

(** A machine that moves right over blanks forever. *)
Definition spinner : t :=
  mk {[ "q0" ]} ∅ {[ "_" ]}
     (final_state (build_table [("q0", "_", "q0", "_", "R")]))
     "q0" "_" ∅ "q0" None 0 [].

(** The spinner never halts: its state is always ["q0"] and every cell of
    its tape holds the blank symbol. *)
Definition spinning (self : t) : Prop :=
  transition_function self = transition_function spinner ∧
  accept_states self = ∅ ∧ current_state self = "q0" ∧
  ∃ tp, tape self = Some tp ∧ ∀ i, Tape.cell tp i = "_".

(** Settles a decidable proposition about concrete data by evaluation. *)
Ltac by_evaluation :=
  match goal with
  | |- ?P => apply (bool_decide_unpack P); vm_compute; exact I
  end.

(** ** Vocabulary of the further properties *)

(** [n] calls of [move(direction)] in a row. *)
Definition moves (direction : string) (n : nat) : prog Tape.t unit :=
  for_each (replicate n direction) Tape.move.

(** Two machines with the same definition: the seven fields that
    [__init__] receives. *)
Definition same_definition (a b : t) : Prop :=
  states a = states b ∧ input_alphabet a = input_alphabet b ∧
  tape_alphabet a = tape_alphabet b ∧
  transition_function a = transition_function b ∧
  initial_state a = initial_state b ∧ blank_symbol a = blank_symbol b ∧
  accept_states a = accept_states b.

(** The last entry of the history is the current configuration. *)
Definition history_shows_current (self : t) : Prop :=
  ∃ tp earlier,
    tape self = Some tp ∧
    execution_history self =
      (earlier ++ [(current_state self, Tape.head_position tp, rendering 10 tp)])%list.

(** How the loop of [run] ended: the budget was used up, or [step]
    returned [False]. *)
Inductive run_exit (max_steps : Z) (calls : nat) (self' : t) : Prop :=
| exit_budget :
    Z.of_nat calls = step_count self' →
    max_steps ≤ step_count self' →
    ((0 < calls)%nat → step_count self' = max_steps) →
    run_exit max_steps calls self'
| exit_halted :
    Z.of_nat calls = step_count self' + 1 →
    step_count self' < max_steps →
    step self' = Returns false self' →
    run_exit max_steps calls self'.

(** During a run on [input_string] the head and the bounds stay within
    the distance that the steps made so far allow. *)
Definition head_within (input_string : string) (self : t) : Prop :=
  ∃ tp, tape self = Some tp ∧
    0 ≤ step_count self ∧
    bounds_include_head tp ∧
    - step_count self ≤ Tape.head_position tp ≤ step_count self ∧
    - step_count self ≤ Tape.leftmost tp ≤ 0 ∧
    0 `max` (len input_string - 1) ≤ Tape.rightmost tp
      ≤ 0 `max` (len input_string - 1) + step_count self.

(** The dictionary that the entries describe, a later entry replacing an
    earlier one for the same state and symbol. *)
Definition table_of (entries : list (string * string * string * string * string))
  : gmap (string * string) (string * string * string) :=
  foldl (λ m '(q, a, q', b, d), <[(q, a) := (q', b, d)]> m) ∅ entries.

(** The configurations that the machine for balanced strings goes through
    on an input string that is not empty: in ["q0"] on the first cell; in
    ["q1"] to the right of a cell 0 marked ["X"], over cells holding ["0"]
    or ["Y"]; in ["q2"] on the way back to the left; or in ["q_reject"]. *)
Inductive balanced_config (tp : Tape.t) : string → Prop :=
| at_start :
    Tape.head_position tp = 0 →
    Tape.cell tp 0 = "0" → Tape.cell tp (-1) = "_" →
    balanced_config tp "q0"
| stuck_at_start :
    Tape.head_position tp = 0 →
    Tape.cell tp 0 = "1" ∨ Tape.cell tp 0 = "X" →
    balanced_config tp "q0"
| seeking_one :
    1 ≤ Tape.head_position tp →
    Tape.cell tp 0 = "X" → Tape.cell tp (-1) = "_" →
    (∀ i, 1 ≤ i < Tape.head_position tp →
          Tape.cell tp i = "0" ∨ Tape.cell tp i = "Y") →
    balanced_config tp "q1"
| returning :
    -1 ≤ Tape.head_position tp →
    Tape.cell tp 0 = "X" → Tape.cell tp (-1) = "_" →
    (∀ i, 1 ≤ i ≤ Tape.head_position tp →
          Tape.cell tp i = "0" ∨ Tape.cell tp i = "Y") →
    balanced_config tp "q2"
| rejected :
    balanced_config tp "q_reject".

(** A machine with the table and the accept states of [balanced_01] in one
    of these configurations. *)
Definition on_rejecting_path (self : t) : Prop :=
  transition_function self = transition_function balanced_01 ∧
  accept_states self = accept_states balanced_01 ∧
  ∃ tp, tape self = Some tp ∧ balanced_config tp (current_state self).

(** Settles an equation between concrete data by evaluation. *)
Ltac table_entry := vm_compute; reflexivity.

(** * Properties *)

(** ** The tape as a total map from positions to symbols *)

Module TapeFacts.
Import Tape.
Import TapeView.

Lemma same_refl a : same a a.
Proof. by repeat split. Qed.

Lemma same_sym a b : same a b → same b a.
Proof. intros (? & ? & ? & ? & ?). by repeat split. Qed.

Lemma same_trans a b c : same a b → same b c → same a c.
Proof.
  intros (? & ? & ? & ? & Hab) (? & ? & ? & ? & Hbc).
  split_and!; [congruence.. | intros i; by rewrite Hab].
Qed.

Lemma extends_refl a : extends a a.
Proof. split; [apply same_refl | done]. Qed.

Lemma extends_trans a b c : extends a b → extends b c → extends a c.
Proof.
  intros [Hab Kab] [Hbc Kbc]. split; [by eapply same_trans | auto].
Qed.

Lemma rendering_same context a b :
  same a b → rendering context a = rendering context b.
Proof.
  intros (_ & Hh & Hl & Hr & Hc). unfold rendering.
  rewrite Hh, Hl, Hr. do 2 f_equal.
  f_equal. apply list_fmap_ext. intros _ i _. apply Hc.
Qed.

Lemma getitem_spec i self :
  ∃ self', getitem i self = Returns (cell self i) self' ∧
           extends self self' ∧ is_Some (tape self' !! i) ∧
           (is_Some (tape self !! i) → self' = self).
Proof.
  unfold getitem, cell. destruct (tape self !! i) as [v|] eqn:E.
  - exists self. split_and!; eauto using extends_refl.
  - eexists. split_and!; [done | | |].
    + split.
      * split_and!; try done. intros j. unfold cell. simpl.
        destruct (decide (i = j)) as [->|].
        -- by rewrite lookup_insert_eq, E.
        -- by rewrite lookup_insert_ne.
      * intros j Hj. simpl. destruct (decide (i = j)) as [->|].
        -- rewrite E in Hj. by destruct Hj.
        -- by rewrite lookup_insert_ne.
    + simpl. rewrite lookup_insert_eq. eauto.
    + intros [? ?]; done.
Qed.

Lemma read_spec self :
  ∃ self', read self = Returns (cell self (head_position self)) self' ∧
           extends self self' ∧
           is_Some (tape self' !! head_position self') ∧
           (is_Some (tape self !! head_position self) → self' = self).
Proof.
  destruct (getitem_spec (head_position self) self) as (s' & ? & X & ? & ?).
  exists s'. split_and!; auto.
  by destruct X as [(_ & <- & _) _].
Qed.

Lemma map_each_getitem_spec l self :
  ∃ self', map_each l getitem self = Returns (cell self <$> l) self' ∧
           extends self self' ∧ ∀ i, i ∈ l → is_Some (tape self' !! i).
Proof.
  revert self. induction l as [|i l IH]; intros self.
  - exists self. split_and!; [done | apply extends_refl |].
    intros i Hi. by apply elem_of_nil in Hi.
  - destruct (getitem_spec i self) as (s1 & E1 & X1 & K1 & _).
    destruct (IH s1) as (s2 & E2 & X2 & K2).
    exists s2. split_and!.
    + simpl. unfold bind at 1. rewrite E1. unfold bind at 1. rewrite E2.
      unfold ret. do 2 f_equal.
      apply list_fmap_ext. intros _ j _. symmetry. apply X1.
    + by eapply extends_trans.
    + intros j [->|Hj]%elem_of_cons; [| by apply K2].
      by apply X2.
Qed.

Lemma get_tape_string_spec context self :
  ∃ self', get_tape_string context self = Returns (rendering context self) self' ∧
           extends self self' ∧
           (0 ≤ context → is_Some (tape self' !! head_position self')).
Proof.
  unfold get_tape_string, rendering.
  set (start := leftmost self `min` (head_position self - context)).
  set (end_ := rightmost self `max` (head_position self + context)).
  destruct (map_each_getitem_spec (range start (end_ + 1)) self)
    as (s' & E & X & K).
  exists s'. split_and!; [| done |].
  - unfold bind at 1, get at 1. fold start. fold end_.
    unfold bind at 1. rewrite E. unfold bind, get, ret.
    destruct X as [(_ & <- & _) _]. done.
  - intros Hc. apply K. destruct X as [(_ & <- & _) _].
    unfold range. apply elem_of_seqZ. lia.
Qed.

Lemma write_spec symbol self :
  write symbol self =
    Returns tt {| blank_symbol := blank_symbol self;
                  tape := <[head_position self := symbol]> (tape self);
                  head_position := head_position self;
                  leftmost := leftmost self `min` head_position self;
                  rightmost := rightmost self `max` head_position self |}.
Proof. reflexivity. Qed.

Lemma move_L self :
  move "L" self =
    Returns tt {| blank_symbol := blank_symbol self;
                  tape := tape self;
                  head_position := head_position self - 1;
                  leftmost := leftmost self `min` (head_position self - 1);
                  rightmost := rightmost self `max` (head_position self - 1) |}.
Proof. reflexivity. Qed.

Lemma move_R self :
  move "R" self =
    Returns tt {| blank_symbol := blank_symbol self;
                  tape := tape self;
                  head_position := head_position self + 1;
                  leftmost := leftmost self `min` (head_position self + 1);
                  rightmost := rightmost self `max` (head_position self + 1) |}.
Proof. reflexivity. Qed.

Lemma move_invalid direction self :
  direction ≠ "L" → direction ≠ "R" →
  move direction self = Raises (InvalidDirection direction) self.
Proof.
  intros HL HR. unfold move, bind.
  destruct (decide (direction = "L")); [done |].
  destruct (decide (direction = "R")); done.
Qed.

Lemma cell_write symbol self self' i :
  write symbol self = Returns tt self' →
  cell self' i = if decide (i = head_position self) then symbol else cell self i.
Proof.
  rewrite write_spec. intros [= <-]. unfold cell. simpl.
  destruct (decide (i = head_position self)) as [->|].
  - by rewrite lookup_insert_eq.
  - by rewrite lookup_insert_ne.
Qed.

(** The positions of the characters of the input string in a new tape. *)
Lemma lookup_enumerate (l : list string) (start i : Z) (d : gmap Z string) :
  foldl (λ d p, <[p.1 := p.2]> d) d (enumerate start l) !! i =
    if decide (start ≤ i < start + Z.of_nat (length l))
    then l !! Z.to_nat (i - start) else d !! i.
Proof.
  revert start d. induction l as [|x l IH]; intros start d; simpl.
  - case_decide; [lia | done].
  - rewrite IH. destruct (decide (i = start)) as [->|].
    + rewrite decide_False by lia. rewrite decide_True by lia.
      rewrite lookup_insert_eq. by replace (start - start) with 0 by lia.
    + rewrite lookup_insert_ne by done.
      case_decide; case_decide; try lia; [| done].
      replace (Z.to_nat (i - start)) with (S (Z.to_nat (i - (start + 1)))) by lia.
      done.
Qed.

Lemma length_chars s : length (chars s) = String.length s.
Proof.
  unfold chars. rewrite length_fmap.
  induction s; simpl; congruence.
Qed.

Lemma cell_init input_string blank i :
  cell (__init__ input_string blank) i =
    if decide (0 ≤ i < len input_string)
    then default blank (chars input_string !! Z.to_nat i) else blank.
Proof.
  unfold cell, __init__. simpl. rewrite lookup_enumerate.
  rewrite length_chars. unfold len. rewrite lookup_empty.
  replace (i - 0) with i by lia.
  case_decide as H; case_decide as H'; try lia; [| done].
  destruct (chars input_string !! Z.to_nat i) eqn:E; [done |].
  apply lookup_ge_None in E. rewrite length_chars in E. lia.
Qed.

End TapeFacts.

(** ** One call of each method of the machine *)

Module MachineFacts.
Import TuringMachine.
Import TapeView MachineView TapeFacts.

Lemma with_run_state_id self :
  with_run_state self (current_state self) (tape self) (step_count self)
    (execution_history self) = self.
Proof. by destruct self. Qed.

Lemma on_tape_returns {A} (c : prog Tape.t A) self tp a tp' :
  tape self = Some tp → c tp = Returns a tp' →
  on_tape c self = Returns a (set_tape (Some tp') self).
Proof. intros H E. unfold on_tape. by rewrite H, E. Qed.

Lemma on_tape_raises {A} (c : prog Tape.t A) self tp e tp' :
  tape self = Some tp → c tp = Raises e tp' →
  on_tape c self = Raises e (set_tape (Some tp') self).
Proof. intros H E. unfold on_tape. by rewrite H, E. Qed.

Lemma save_configuration_spec self tp :
  tape self = Some tp →
  ∃ tp', _save_configuration self =
           Returns tt (with_run_state self (current_state self) (Some tp')
                         (step_count self)
                         (execution_history self ++
                            [(current_state self, Tape.head_position tp,
                              rendering 10 tp)])) ∧
         extends tp tp' ∧
         is_Some (Tape.tape tp' !! Tape.head_position tp').
Proof.
  intros Htp.
  destruct (get_tape_string_spec 10 tp) as (tp' & E & X & K).
  exists tp'. split_and!; [| done | apply K; lia].
  unfold _save_configuration, bind, get. rewrite Htp.
  unfold on_tape. rewrite Htp, E. reflexivity.
Qed.

Lemma check_symbols_spec (l : list string) self :
  (Forall (λ c, c ∈ input_alphabet self) l ∧
   for_each l check_symbol self = Returns tt self) ∨
  (∃ c, c ∈ l ∧ (c ∉ input_alphabet self) ∧
        for_each l check_symbol self = Raises (InvalidSymbol c) self).
Proof.
  induction l as [|c l IH]; simpl.
  - left. by split.
  - unfold bind at 1, check_symbol, bind, get.
    destruct (decide (c ∈ input_alphabet self)) as [Hc|Hc].
    + rewrite bool_decide_false by (by intros ?). unfold ret.
      destruct IH as [[HF E]|(c' & Hin & Hout & E)].
      * left. split; [by constructor | done].
      * right. exists c'. split_and!; [by right | done | done].
    + rewrite bool_decide_true by done.
      right. exists c. split_and!; [by left | done | done].
Qed.

Lemma reset_unfold input_string self :
  reset input_string self =
    match for_each (chars input_string) check_symbol self with
    | Returns _ self' =>
        _save_configuration
          (with_run_state self' (initial_state self')
             (Some (Tape.__init__ input_string (blank_symbol self'))) 0 [])
    | Raises e self' => Raises e self'
    end.
Proof.
  unfold reset. unfold bind at 1. fold check_symbol.
  destruct (for_each (chars input_string) check_symbol self); reflexivity.
Qed.

Lemma reset_valid input_string self :
  Forall (λ c, c ∈ input_alphabet self) (chars input_string) →
  let tp := Tape.__init__ input_string (blank_symbol self) in
  ∃ tp', reset input_string self =
           Returns tt (with_run_state self (initial_state self) (Some tp') 0
                         [(initial_state self, 0, rendering 10 tp)]) ∧
         extends tp tp' ∧
         is_Some (Tape.tape tp' !! Tape.head_position tp').
Proof.
  intros Hv tp. rewrite reset_unfold.
  destruct (check_symbols_spec (chars input_string) self)
    as [[_ ->]|(c & Hin & Hout & _)].
  - set (self0 := with_run_state _ _ _ _ _).
    destruct (save_configuration_spec self0 tp eq_refl) as (tp' & E & X & K).
    exists tp'. by rewrite E.
  - rewrite Forall_forall in Hv. by destruct Hout; apply Hv.
Qed.

Lemma reset_invalid input_string self :
  ¬ Forall (λ c, c ∈ input_alphabet self) (chars input_string) →
  ∃ c, c ∈ chars input_string ∧ (c ∉ input_alphabet self) ∧
       reset input_string self = Raises (InvalidSymbol c) self.
Proof.
  intros Hv. rewrite reset_unfold.
  destruct (check_symbols_spec (chars input_string) self)
    as [[HF _]|(c & Hin & Hout & ->)]; [done |].
  by exists c.
Qed.

Lemma step_not_initialized self :
  tape self = None → step self = Raises NotInitialized self.
Proof. intros H. unfold step, bind, get. by rewrite H. Qed.

Lemma step_accepting self tp :
  tape self = Some tp → current_state self ∈ accept_states self →
  step self = Returns false self.
Proof.
  intros H Hacc. unfold step, bind, get. rewrite H.
  by rewrite bool_decide_true.
Qed.

Lemma step_stuck self tp :
  tape self = Some tp → current_state self ∉ accept_states self →
  TransitionFunction.get_transition (transition_function self)
    (current_state self) (Tape.cell tp (Tape.head_position tp)) = None →
  ∃ tp', step self = Returns false (set_tape (Some tp') self) ∧
         extends tp tp' ∧
         is_Some (Tape.tape tp' !! Tape.head_position tp') ∧
         (is_Some (Tape.tape tp !! Tape.head_position tp) → tp' = tp).
Proof.
  intros H Hacc Hno.
  destruct (read_spec tp) as (tp' & E & X & S & K).
  exists tp'. split_and!; [| done | done | done].
  unfold step, bind, get. rewrite H.
  rewrite bool_decide_false by done.
  by rewrite (on_tape_returns _ _ _ _ _ H E), Hno.
Qed.

Lemma write_move_spec tp tp1 write_symbol direction :
  extends tp tp1 → direction = "L" ∨ direction = "R" →
  ∃ tp2, Tape.write write_symbol tp1 = Returns tt tp2 ∧
  ∃ tp3, Tape.move direction tp2 = Returns tt tp3 ∧
         extends (fired_tape tp write_symbol (delta_of direction)) tp3.
Proof.
  intros [(Hb & Hh & Hl & Hr & Hc) Hk] Hd.
  eexists. split; [apply write_spec |].
  assert (extends (fired_tape tp write_symbol (delta_of direction))
            (fired_tape tp1 write_symbol (delta_of direction))) as HX.
  { unfold fired_tape. rewrite Hb, Hh, Hl, Hr. split.
    - split_and!; try done. intros i. unfold Tape.cell. simpl.
      destruct (decide (Tape.head_position tp1 = i)) as [->|].
      + by rewrite !lookup_insert_eq.
      + rewrite !lookup_insert_ne by done.
        specialize (Hc i). unfold Tape.cell in Hc. by rewrite Hb in Hc.
    - intros i. simpl.
      destruct (decide (Tape.head_position tp1 = i)) as [->|].
      + by rewrite !lookup_insert_eq.
      + rewrite !lookup_insert_ne by done. apply Hk. }
  destruct Hd as [-> | ->].
  - eexists. split; [apply move_L |]. exact HX.
  - eexists. split; [apply move_R |]. exact HX.
Qed.

Lemma step_fires self tp next_state write_symbol direction :
  tape self = Some tp → current_state self ∉ accept_states self →
  TransitionFunction.get_transition (transition_function self)
    (current_state self) (Tape.cell tp (Tape.head_position tp))
    = Some (next_state, write_symbol, direction) →
  direction = "L" ∨ direction = "R" →
  let fired := fired_tape tp write_symbol (delta_of direction) in
  ∃ tp', step self =
           Returns true
             (with_run_state self next_state (Some tp') (step_count self + 1)
                (execution_history self ++
                   [(next_state, Tape.head_position fired, rendering 10 fired)])) ∧
         extends fired tp' ∧
         is_Some (Tape.tape tp' !! Tape.head_position tp').
Proof.
  intros H Hacc Htr Hd fired.
  destruct (read_spec tp) as (tp1 & E1 & X1 & _ & _).
  destruct (write_move_spec tp tp1 write_symbol direction X1 Hd)
    as (tp2 & E2 & tp3 & E3 & X3).
  fold fired in X3.
  set (self3 := with_run_state self next_state (Some tp3) (step_count self + 1)
                  (execution_history self)).
  destruct (save_configuration_spec self3 tp3 eq_refl) as (tp' & E4 & X4 & K4).
  exists tp'. split_and!; [| by eapply extends_trans | done].
  unfold step, bind, get. rewrite H.
  rewrite bool_decide_false by done.
  rewrite (on_tape_returns _ _ _ _ _ H E1), Htr.
  rewrite (on_tape_returns _ (set_tape (Some tp1) self) tp1 _ _ eq_refl E2).
  rewrite (on_tape_returns _ (set_tape (Some tp2) (set_tape (Some tp1) self))
             tp2 _ _ eq_refl E3).
  unfold modify.
  change (set_step_count _ _) with self3.
  rewrite E4. unfold ret, self3. simpl.
  rewrite (rendering_same 10 fired tp3) by apply X3.
  by destruct X3 as [(_ & <- & _) _].
Qed.

(** A table entry whose direction is neither ["L"] nor ["R"] (which
    [add_transition] never stores): the symbol is written, then [move]
    raises; the state, the counter and the history are as before. *)
Lemma step_bad_direction self tp next_state write_symbol direction :
  tape self = Some tp → current_state self ∉ accept_states self →
  TransitionFunction.get_transition (transition_function self)
    (current_state self) (Tape.cell tp (Tape.head_position tp))
    = Some (next_state, write_symbol, direction) →
  direction ≠ "L" → direction ≠ "R" →
  ∃ tp', step self = Raises (InvalidDirection direction) (set_tape (Some tp') self) ∧
         is_Some (Tape.tape tp' !! Tape.head_position tp').
Proof.
  intros H Hacc Htr HL HR.
  destruct (read_spec tp) as (tp1 & E1 & X1 & _ & _).
  eexists. split.
  - unfold step, bind, get. rewrite H.
    rewrite bool_decide_false by done.
    rewrite (on_tape_returns _ _ _ _ _ H E1), Htr.
    rewrite (on_tape_returns _ (set_tape (Some tp1) self) tp1 _ _ eq_refl
               (write_spec _ _)).
    by rewrite (on_tape_raises _ (set_tape _ (set_tape (Some tp1) self)) _ _ _
                  eq_refl (move_invalid _ _ HL HR)).
  - simpl. rewrite lookup_insert_eq. eauto.
Qed.

Lemma step_ok self : step_spec self (step self).
Proof.
  destruct (tape self) as [tp|] eqn:H.
  2: { rewrite step_not_initialized by done. by constructor. }
  destruct (decide (current_state self ∈ accept_states self)) as [Hacc|Hacc].
  { rewrite (step_accepting self tp) by done. by econstructor. }
  destruct (TransitionFunction.get_transition (transition_function self)
              (current_state self) (Tape.cell tp (Tape.head_position tp)))
    as [[[next_state write_symbol] direction]|] eqn:Htr.
  2: { destruct (step_stuck self tp H Hacc Htr) as (tp' & -> & ? & ? & ?).
       by econstructor. }
  destruct (decide (direction = "L")) as [HL|HL].
  { destruct (step_fires self tp _ _ _ H Hacc Htr (or_introl HL))
      as (tp' & -> & ? & ?).
    econstructor; eauto. }
  destruct (decide (direction = "R")) as [HR|HR].
  { destruct (step_fires self tp _ _ _ H Hacc Htr (or_intror HR))
      as (tp' & -> & ? & ?).
    econstructor; eauto. }
  destruct (step_bad_direction self tp _ _ _ H Hacc Htr HL HR) as (tp' & -> & ?).
  by econstructor.
Qed.

Lemma after_steps_S n self :
  after_steps (S n) self = after_steps n (final_state (step self)).
Proof. unfold after_steps. by rewrite Nat.iter_succ_r. Qed.

Lemma after_steps_add j k self :
  after_steps (j + k) self = after_steps k (after_steps j self).
Proof. unfold after_steps. by rewrite Nat.add_comm, Nat.iter_add. Qed.

(** What one call of [step] does to the counter and to the history. *)
Lemma step_history self :
  let self' := final_state (step self) in
  (step_count self' = step_count self ∧
   execution_history self' = execution_history self) ∨
  (step_count self' = step_count self + 1 ∧
   ∃ entry, execution_history self' = (execution_history self ++ [entry])%list).
Proof.
  destruct (step_ok self); simpl; eauto.
Qed.

Lemma step_true_count self self' :
  step self = Returns true self' → step_count self' = step_count self + 1.
Proof.
  intros E. destruct (step_ok self); by simplify_eq.
Qed.

Lemma step_initialized self :
  is_Some (tape self) → is_Some (tape (final_state (step self))).
Proof.
  intros [tp Htp]. destruct (step_ok self); simpl; eauto.
Qed.

Lemma step_head_stored self :
  head_stored self → head_stored (final_state (step self)).
Proof.
  intros Hs. destruct (step_ok self); simpl; try done;
    eexists; split; try done; done.
Qed.

Lemma reset_returns input_string self self' :
  reset input_string self = Returns tt self' →
  Forall (λ c, c ∈ input_alphabet self) (chars input_string).
Proof.
  intros E.
  destruct (decide (Forall (λ c, c ∈ input_alphabet self) (chars input_string)))
    as [|Hn]; [done |].
  destruct (reset_invalid _ _ Hn) as (c & _ & _ & E'). congruence.
Qed.

End MachineFacts.

Import TuringMachine TapeView MachineView TapeFacts MachineFacts.

(** ** The engine: [step] *)

(** C1. Acceptance priority: on an initialized machine whose current state
    is an accept state, [step()] returns [False] and the machine, with its
    whole run state, is exactly as before.  The transition table does not
    occur in the statement: a transition defined for the current state and
    the symbol under the head does not fire. *)
Theorem step_acceptance_priority (self : t) :
  is_Some (tape self) →
  current_state self ∈ accept_states self →
  step self = Returns false self.
Proof.
  intros [tp Htp] Hacc. by apply (step_accepting self tp).
Qed.

Lemma step_acceptance_priority_witness :
  let self := final_state (reset "" accept_loop) in
  TransitionFunction.has_transition (transition_function self)
    (current_state self) "_" = true ∧
  step self = Returns false self.
Proof.
  split; [vm_compute; reflexivity |].
  apply step_acceptance_priority.
  - vm_compute. eauto.
  - by_evaluation.
Defined.

(** C3. Absent-transition rejection: on an initialized machine whose current
    state is not accepting and whose table has no entry for the current
    state and the symbol under the head, [step()] returns [False]; the
    current state, the step counter, the history and the definition are as
    before, and so is the tape: the same symbol at every position, the same
    head and bounds.  When the head's cell is stored in the dictionary, as
    it is after every [reset] and [step], the machine is exactly as
    before. *)
Theorem step_absent_transition (self : t) (tp : Tape.t) :
  tape self = Some tp →
  current_state self ∉ accept_states self →
  TransitionFunction.get_transition (transition_function self)
    (current_state self) (Tape.cell tp (Tape.head_position tp)) = None →
  ∃ tp', step self =
           Returns false (with_run_state self (current_state self) (Some tp')
                            (step_count self) (execution_history self)) ∧
         same tp tp' ∧
         (head_stored self → tp' = tp ∧ step self = Returns false self).
Proof.
  intros Htp Hacc Hno.
  destruct (step_stuck self tp Htp Hacc Hno) as (tp' & E & [X _] & _ & K).
  exists tp'. split_and!; [done | done |].
  intros (tp0 & Htp0 & Hs). simplify_eq.
  rewrite E, (K Hs). split; [done |].
  f_equal. destruct self; simpl in *; by subst.
Qed.

Lemma step_absent_transition_witness :
  let self := final_state (reset "1" balanced_01) in
  ∃ tp', step self =
      Returns false (with_run_state self (current_state self) (Some tp')
                       (step_count self) (execution_history self)) ∧
    same (tape_of self) tp' ∧
    (head_stored self → tp' = tape_of self ∧ step self = Returns false self).
Proof.
  intros self.
  apply (step_absent_transition self (tape_of self)).
  - vm_compute; reflexivity.
  - by_evaluation.
  - vm_compute; reflexivity.
Defined.

(** After a [reset] and any number of calls of [step], the head's cell is
    stored in the tape's dictionary. *)
Lemma in_run_head_stored input_string (self self0 : t) (n : nat) :
  reset input_string self = Returns tt self0 →
  head_stored (after_steps n self0).
Proof.
  intros E. revert self0 E.
  assert (∀ m, head_stored m → head_stored (after_steps n m)) as Hn.
  { induction n as [|n IH]; intros m Hm; [done |].
    rewrite after_steps_S. by apply IH, step_head_stored. }
  intros self0 E. apply Hn.
  destruct (reset_valid input_string self (reset_returns _ _ _ E))
    as (tp' & E' & _ & K).
  rewrite E in E'. injection E' as ->. by exists tp'.
Qed.

(** C6. Successful step: on an initialized machine whose current state is
    not accepting and whose table holds [(next_state, write_symbol,
    direction)] for the current state and the symbol under the head,
    [step()] returns [True]; afterwards the old head position holds
    [write_symbol] and every other position holds what it held, the head is
    one cell to the left (["L"]) or to the right (["R"]), the current state
    is [next_state], the step counter is one more, and the history is the
    old one followed by one entry, the new configuration. *)
Theorem step_successful (self : t) (tp : Tape.t)
    (next_state write_symbol direction : string) :
  tape self = Some tp →
  current_state self ∉ accept_states self →
  TransitionFunction.get_transition (transition_function self)
    (current_state self) (Tape.cell tp (Tape.head_position tp))
    = Some (next_state, write_symbol, direction) →
  direction = "L" ∨ direction = "R" →
  ∃ tp', step self =
           Returns true
             (with_run_state self next_state (Some tp') (step_count self + 1)
                (execution_history self ++
                   [(next_state, Tape.head_position tp', rendering 10 tp')])) ∧
         Tape.cell tp' (Tape.head_position tp) = write_symbol ∧
         (∀ i, i ≠ Tape.head_position tp → Tape.cell tp' i = Tape.cell tp i) ∧
         Tape.head_position tp' =
           Tape.head_position tp + (if decide (direction = "L") then -1 else 1).
Proof.
  intros Htp Hacc Htr Hd.
  destruct (step_fires self tp _ _ _ Htp Hacc Htr Hd)
    as (tp' & E & [X _] & _).
  exists tp'. pose proof X as (_ & Hh & _ & _ & Hc). split_and!.
  - rewrite E. by rewrite <- Hh, (rendering_same 10 _ tp' X).
  - rewrite <- Hc. unfold Tape.cell, fired_tape. simpl.
    by rewrite lookup_insert_eq.
  - intros i Hi. rewrite <- Hc. unfold Tape.cell, fired_tape. simpl.
    by rewrite lookup_insert_ne.
  - by rewrite <- Hh.
Qed.

Lemma step_successful_witness :
  let self := final_state (reset "01" balanced_01) in
  ∃ tp', step self =
           Returns true
             (with_run_state self "q1" (Some tp') (step_count self + 1)
                (execution_history self ++
                   [("q1", Tape.head_position tp', rendering 10 tp')])) ∧
         Tape.cell tp' (Tape.head_position (tape_of self)) = "X" ∧
         (∀ i, i ≠ Tape.head_position (tape_of self) →
               Tape.cell tp' i = Tape.cell (tape_of self) i) ∧
         Tape.head_position tp' = Tape.head_position (tape_of self) + 1.
Proof.
  intros self.
  apply (step_successful self (tape_of self) "q1" "X" "R").
  - vm_compute; reflexivity.
  - by_evaluation.
  - vm_compute; reflexivity.
  - by right.
Defined.

(** ** The engine: [reset] *)

(** C4. [reset] raises exactly when some character of the input string is
    not in the input alphabet; the exception is then the one for an invalid
    symbol, and the machine, with its tape and its whole run state, is
    exactly as before. *)
Theorem reset_invalid_symbol (self : t) (input_string : string) :
  ((∃ e self', reset input_string self = Raises e self') ↔
   (∃ c, c ∈ chars input_string ∧ c ∉ input_alphabet self)) ∧
  (∀ e self', reset input_string self = Raises e self' →
     self' = self ∧
     ∃ c, e = InvalidSymbol c ∧ c ∈ chars input_string ∧ c ∉ input_alphabet self).
Proof.
  destruct (decide (Forall (λ c, c ∈ input_alphabet self) (chars input_string)))
    as [Hv|Hv].
  - destruct (reset_valid _ _ Hv) as (tp' & E & _). rewrite E.
    split; [split |].
    + by intros (? & ? & ?).
    + intros (c & Hin & Hout). rewrite Forall_forall in Hv.
      by destruct Hout; apply Hv.
    + by intros ? ? ?.
  - destruct (reset_invalid _ _ Hv) as (c & Hin & Hout & E). rewrite E.
    split; [split |]; eauto.
    intros e self' [= <- <-]. eauto.
Qed.

Lemma reset_invalid_symbol_witness :
  reset "012" balanced_01 = Raises (InvalidSymbol "2") balanced_01.
Proof.
  destruct (reset_invalid_symbol balanced_01 "012") as [[_ Hfail] Hkeep].
  destruct Hfail as (e & self' & E).
  - exists "2". split; by_evaluation.
  - rewrite E. destruct (Hkeep e self' E) as (-> & c & -> & Hin & Hout).
    f_equal. f_equal.
    vm_compute in Hin.
    apply elem_of_cons in Hin as [->|Hin]; [by destruct Hout; by_evaluation |].
    apply elem_of_cons in Hin as [->|Hin]; [by destruct Hout; by_evaluation |].
    apply elem_of_cons in Hin as [->|Hin]; [done |].
    by apply elem_of_nil in Hin.
Defined.

(** C5. [reset] on an input string over the input alphabet returns; the new
    tape holds the characters of the string at positions [0 .. len-1] and
    the blank symbol everywhere else, its head is at 0, its leftmost bound
    is 0 and its rightmost bound is [max 0 (len - 1)]; the current state is
    the initial state, the step counter is 0, and the history has exactly
    one entry, the initial configuration.  The definition of the machine is
    not changed. *)
Theorem reset_success (self : t) (input_string : string) :
  Forall (λ c, c ∈ input_alphabet self) (chars input_string) →
  ∃ tp, reset input_string self =
          Returns tt (with_run_state self (initial_state self) (Some tp) 0
                        [(initial_state self, 0, rendering 10 tp)]) ∧
        (∀ i, 0 ≤ i < len input_string →
              chars input_string !! Z.to_nat i = Some (Tape.cell tp i)) ∧
        (∀ i, ¬ (0 ≤ i < len input_string) →
              Tape.cell tp i = blank_symbol self) ∧
        Tape.blank_symbol tp = blank_symbol self ∧
        Tape.head_position tp = 0 ∧
        Tape.leftmost tp = 0 ∧
        Tape.rightmost tp = 0 `max` (len input_string - 1).
Proof.
  intros Hv. destruct (reset_valid _ _ Hv) as (tp & E & [X _] & _).
  exists tp. pose proof X as (Hb & Hh & Hl & Hr & Hc).
  split_and!.
  - rewrite E. by rewrite (rendering_same 10 _ tp X).
  - intros i Hi. rewrite <- Hc, cell_init, decide_True by done.
    destruct (chars input_string !! Z.to_nat i) eqn:Hi'; [done |].
    apply lookup_ge_None in Hi'. rewrite length_chars in Hi'.
    unfold len in Hi. lia.
  - intros i Hi. by rewrite <- Hc, cell_init, decide_False.
  - by rewrite <- Hb.
  - by rewrite <- Hh.
  - by rewrite <- Hl.
  - rewrite <- Hr. simpl. unfold len.
    destruct input_string; simpl; [done | lia].
Qed.

Lemma reset_success_witness :
  ∃ tp, reset "01" balanced_01 =
          Returns tt (with_run_state balanced_01 "q0" (Some tp) 0
                        [("q0", 0, rendering 10 tp)]) ∧
        Tape.cell tp 0 = "0" ∧ Tape.cell tp 1 = "1" ∧ Tape.cell tp 2 = "_" ∧
        Tape.cell tp (-1) = "_" ∧ Tape.rightmost tp = 1.
Proof.
  destruct (reset_success balanced_01 "01")
    as (tp & E & Hin & Hout & _ & _ & _ & Hr); [by_evaluation |].
  assert (len "01" = 2) as Hlen by reflexivity.
  exists tp. split_and!.
  - exact E.
  - specialize (Hin 0 ltac:(rewrite Hlen; lia)).
    change (Some "0" = Some (Tape.cell tp 0)) in Hin. congruence.
  - specialize (Hin 1 ltac:(rewrite Hlen; lia)).
    change (Some "1" = Some (Tape.cell tp 1)) in Hin. congruence.
  - apply Hout. rewrite Hlen. lia.
  - apply Hout. rewrite Hlen. lia.
  - rewrite Hr. reflexivity.
Defined.

(** ** Construction *)

(** C7. Constructing a machine raises the exception for an invalid
    definition exactly when the initial state is not a state, or the accept
    states are not all states, or the input alphabet is not included in the
    tape alphabet, or the blank symbol is not in the tape alphabet.  When
    none of these holds the machine is created with the seven fields of the
    definition as given. *)
Theorem construction_validation
    (Q Σ Γ : gset string) (δ : TransitionFunction.t) (q0 b : string)
    (F : gset string) :
  ((∃ check, __init__ Q Σ Γ δ q0 b F = inl (InvalidDefinition check)) ↔
   (q0 ∉ Q ∨ ¬ F ⊆ Q ∨ ¬ Σ ⊆ Γ ∨ b ∉ Γ)) ∧
  (¬ (q0 ∉ Q ∨ ¬ F ⊆ Q ∨ ¬ Σ ⊆ Γ ∨ b ∉ Γ) →
   __init__ Q Σ Γ δ q0 b F = inr (constructed Q Σ Γ δ q0 b F)).
Proof.
  unfold __init__, constructed.
  destruct (decide (q0 ∈ Q)) as [H1|H1].
  2: { rewrite bool_decide_true by done. split; [split|]; [eauto.. |].
       intros []. by left. }
  rewrite bool_decide_false by (by intros ?).
  destruct (decide (F ⊆ Q)) as [H2|H2].
  2: { rewrite bool_decide_false by done. split; [split|]; [eauto.. |].
       intros []. by right; left. }
  rewrite bool_decide_true by done.
  destruct (decide (Σ ⊆ Γ)) as [H3|H3].
  2: { rewrite bool_decide_false by done. split; [split|]; [eauto.. |].
       intros []. by right; right; left. }
  rewrite bool_decide_true by done.
  destruct (decide (b ∈ Γ)) as [H4|H4].
  2: { rewrite bool_decide_true by done. split; [split|]; [eauto.. |].
       intros []. by right; right; right. }
  rewrite bool_decide_false by (by intros ?). simpl.
  split; [split |]; [by intros [? ?] | | done].
  intros [?|[?|[?|?]]]; done.
Qed.

Lemma construction_validation_witness :
  create_balanced_01_machine = inr balanced_01.
Proof.
  apply construction_validation.
  intros [H|[H|[H|H]]]; revert H; by_evaluation.
Defined.

Lemma init_returns (Q Σ Γ : gset string) (δ : TransitionFunction.t)
    (q0 b : string) (F : gset string) (self : t) :
  __init__ Q Σ Γ δ q0 b F = inr self → self = constructed Q Σ Γ δ q0 b F.
Proof.
  unfold __init__. repeat (case_match; [done |]). by intros [= <-].
Qed.

Lemma balanced_01_constructed :
  __init__ {[ "q0"; "q1"; "q2"; "q3"; "q4"; "q_accept"; "q_reject" ]}
    {[ "0"; "1" ]} {[ "0"; "1"; "X"; "Y"; "_" ]}
    (final_state (build_table balanced_01_transitions))
    "q0" "_" {[ "q_accept" ]} = inr balanced_01.
Proof. vm_compute; reflexivity. Qed.

(** C8, as the code has it.  On a machine just constructed, [step()] raises
    the exception for a machine that was not initialized and changes
    nothing.  Asking for the classification is not an error: [get_result]
    returns the classification of the initial state.  The step counter is 0,
    the history is empty and there is no tape. *)
Theorem fresh_machine_queries
    (Q Σ Γ : gset string) (δ : TransitionFunction.t) (q0 b : string)
    (F : gset string) (self : t) :
  __init__ Q Σ Γ δ q0 b F = inr self →
  step self = Raises NotInitialized self ∧
  get_result self =
    Returns (if bool_decide (q0 ∈ F) then "Acepta" else "Rechaza") self ∧
  step_count self = 0 ∧ execution_history self = [] ∧ tape self = None.
Proof.
  intros ->%init_returns.
  split_and!; try done.
  unfold get_result, bind, get, constructed. simpl.
  by destruct (bool_decide (q0 ∈ F)).
Qed.

Lemma fresh_machine_queries_witness :
  step balanced_01 = Raises NotInitialized balanced_01 ∧
  get_result balanced_01 = Returns "Rechaza" balanced_01.
Proof.
  destruct (fresh_machine_queries _ _ _ _ _ _ _ balanced_01
              balanced_01_constructed) as (Hs & Hr & _).
  split; [exact Hs | exact Hr].
Defined.

(** C8 as stated fails: on the machine for balanced strings, just
    constructed, [get_result] returns a classification and raises nothing. *)
Lemma fresh_get_result_is_no_error :
  ¬ (∀ (Q Σ Γ : gset string) δ q0 b F self,
       __init__ Q Σ Γ δ q0 b F = inr self →
       step self = Raises NotInitialized self ∧
       ∃ self', get_result self = Raises NotInitialized self').
Proof.
  intros H.
  destruct (H _ _ _ _ _ _ _ balanced_01 balanced_01_constructed)
    as (_ & self' & E).
  discriminate E.
Qed.

(** ** The tape *)

(** C10. The bounds include the head on a new tape, after every [write] and
    after every [move] that returns, whatever the tape was before: [write]
    and [move] extend the bounds by the (new) head position and leave the
    blank symbol alone.  A [move] to ["L"] or ["R"] returns, with the head
    one cell further; any other direction raises the exception for an
    invalid direction and the tape is exactly as before. *)
Theorem tape_bounds_invariant :
  (∀ input_string blank, bounds_include_head (Tape.__init__ input_string blank)) ∧
  (∀ symbol tp, ∃ tp',
     Tape.write symbol tp = Returns tt tp' ∧ bounds_include_head tp' ∧
     Tape.leftmost tp' = Tape.leftmost tp `min` Tape.head_position tp ∧
     Tape.rightmost tp' = Tape.rightmost tp `max` Tape.head_position tp) ∧
  (∀ direction tp, direction = "L" ∨ direction = "R" → ∃ tp',
     Tape.move direction tp = Returns tt tp' ∧ bounds_include_head tp' ∧
     Tape.head_position tp' = Tape.head_position tp + delta_of direction ∧
     Tape.leftmost tp' = Tape.leftmost tp `min` Tape.head_position tp' ∧
     Tape.rightmost tp' = Tape.rightmost tp `max` Tape.head_position tp') ∧
  (∀ direction tp, direction ≠ "L" → direction ≠ "R" →
     Tape.move direction tp = Raises (InvalidDirection direction) tp).
Proof.
  unfold bounds_include_head. split_and!.
  - intros input_string blank. simpl. unfold len.
    destruct input_string; simpl; lia.
  - intros symbol tp. eexists. split; [apply write_spec |]. simpl. lia.
  - intros direction tp [-> | ->]; eexists.
    + split; [apply move_L |]. simpl. unfold delta_of. simpl. lia.
    + split; [apply move_R |]. simpl. unfold delta_of. simpl. lia.
  - intros direction tp HL HR. by apply move_invalid.
Qed.

Lemma tape_bounds_invariant_witness :
  let tp := Tape.mk "_" ∅ 7 0 3 in
  ¬ bounds_include_head tp ∧
  (∃ tp', Tape.move "L" tp = Returns tt tp' ∧ bounds_include_head tp' ∧
          Tape.head_position tp' = 6) ∧
  Tape.move "l" tp = Raises (InvalidDirection "l") tp.
Proof.
  intros tp. destruct tape_bounds_invariant as (_ & _ & Hmove & Hbad).
  split_and!.
  - unfold bounds_include_head. simpl. lia.
  - destruct (Hmove "L" tp (or_introl eq_refl)) as (tp' & E & Hb & Hh & _).
    exists tp'. split_and!; [done | done |]. by rewrite Hh.
  - by apply Hbad.
Defined.

(** ** Runs *)

(** C9. After a [reset] that returns and any number of calls of [step],
    the history has one entry more than the step counter says; and the
    history at any moment of the run is a prefix of the history at every
    later moment. *)
Theorem history_length_invariant (self self0 : t) (input_string : string)
    (j k : nat) :
  reset input_string self = Returns tt self0 →
  let now := after_steps j self0 in
  let later := after_steps k now in
  Z.of_nat (length (execution_history now)) = step_count now + 1 ∧
  execution_history now `prefix_of` execution_history later.
Proof.
  intros E now later. split.
  - subst now. clear later k.
    assert (Z.of_nat (length (execution_history self0)) = step_count self0 + 1)
      as H0.
    { destruct (reset_valid input_string self (reset_returns _ _ _ E))
        as (tp' & E' & _).
      rewrite E in E'. by injection E' as ->. }
    clear E. revert self0 H0. induction j as [|j IH]; intros m Hm; [done |].
    rewrite after_steps_S. apply IH.
    destruct (step_history m) as [[-> ->]|[-> [entry ->]]]; [done |].
    rewrite length_app. simpl. lia.
  - subst later. generalize now. clear.
    induction k as [|k IH]; intros m; [done |].
    rewrite after_steps_S. etrans; [| apply IH].
    destruct (step_history m) as [[_ ->]|[_ [entry ->]]]; [done |].
    by apply prefix_app_r.
Qed.

Lemma history_length_invariant_witness :
  let now := after_steps 2 (final_state (reset "01" balanced_01)) in
  let later := after_steps 3 now in
  Z.of_nat (length (execution_history now)) = step_count now + 1 ∧
  execution_history now `prefix_of` execution_history later.
Proof.
  apply (history_length_invariant balanced_01 _ "01" 2 3).
  vm_compute; reflexivity.
Defined.

Lemma step_true_not_accepting self self' :
  step self = Returns true self' →
  current_state self ∉ accept_states self.
Proof. intros E. destruct (step_ok self); by simplify_eq. Qed.

Lemma get_result_spec self :
  get_result self =
    Returns (if bool_decide (current_state self ∈ accept_states self)
             then "Acepta" else "Rechaza") self.
Proof.
  unfold get_result, bind, get.
  by destruct (bool_decide (current_state self ∈ accept_states self)).
Qed.

Lemma run_loop_unfold fuel max_steps self :
  run_loop fuel max_steps self =
    if bool_decide (step_count self < max_steps) then
      match fuel with
      | O => Raises OutOfFuel self
      | S fuel =>
          match step self with
          | Returns true self' =>
              match run_loop fuel max_steps self' with
              | Returns calls self'' => Returns (S calls) self''
              | Raises e self'' => Raises e self''
              end
          | Returns false self' => Returns 1%nat self'
          | Raises e self' => Raises e self'
          end
      end
    else Returns 0%nat self.
Proof.
  destruct fuel; simpl; unfold bind, get;
    destruct (bool_decide (step_count self < max_steps)); try done.
  by destruct (step self) as [[] ?|].
Qed.

(** While every call makes progress, the loop calls [step] until the
    counter reaches [max_steps]. *)
Lemma run_loop_progress (n fuel : nat) (max_steps : Z) (self : t) :
  (∀ k, (k < n)%nat → makes_progress (after_steps k self)) →
  step_count self + Z.of_nat n = max_steps →
  (n ≤ fuel)%nat →
  run_loop fuel max_steps self = Returns n (after_steps n self) ∧
  step_count (after_steps n self) = max_steps.
Proof.
  revert fuel self. induction n as [|n IH]; intros fuel self Hp Hc Hf.
  - rewrite run_loop_unfold, bool_decide_false by lia.
    split; [done |]. simpl. lia.
  - destruct fuel as [|fuel]; [lia |].
    rewrite run_loop_unfold, bool_decide_true by lia.
    destruct (Hp 0%nat ltac:(lia)) as [self' E]. simpl in E. rewrite E.
    rewrite after_steps_S, E. simpl.
    destruct (IH fuel self') as [-> Hn]; [| | lia | done].
    + intros k Hk. specialize (Hp (S k) ltac:(lia)).
      by rewrite after_steps_S, E in Hp.
    + rewrite (step_true_count _ _ E). lia.
Qed.

(** C2. Budget and classification.  When no configuration of the run on
    [input_string] is a halting one, [run(input_string, N)] calls [step]
    exactly [N] times, ends with the step counter at [N], and the result is
    the rejecting one.  And whenever [run] returns, the result is the
    accepting one exactly when the final current state is an accept state,
    and the rejecting one exactly when it is not. *)
Theorem run_budget_and_classification :
  (∀ (self self0 : t) (input_string : string) (N : nat),
     reset input_string self = Returns tt self0 →
     never_halts self0 →
     ∃ self', run input_string (Z.of_nat N) self = Returns N self' ∧
              self' = after_steps N self0 ∧
              step_count self' = Z.of_nat N ∧
              get_result self' = Returns "Rechaza" self') ∧
  (∀ (self self' : t) (input_string : string) (max_steps : Z) (calls : nat),
     run input_string max_steps self = Returns calls self' →
     (get_result self' = Returns "Acepta" self' ↔
      current_state self' ∈ accept_states self') ∧
     (get_result self' = Returns "Rechaza" self' ↔
      current_state self' ∉ accept_states self')).
Proof.
  split.
  - intros self self0 input_string N E Hnever.
    assert (step_count self0 = 0) as H0.
    { destruct (reset_valid input_string self (reset_returns _ _ _ E))
        as (tp' & E' & _).
      rewrite E in E'. by injection E' as ->. }
    destruct (run_loop_progress N (Z.to_nat (Z.of_nat N)) (Z.of_nat N) self0)
      as [Hrun Hcount]; [by intros k _ | lia | lia |].
    exists (after_steps N self0). split_and!; [| done | done |].
    + unfold run, bind. by rewrite E.
    + rewrite get_result_spec, bool_decide_false; [done |].
      destruct (Hnever N) as [self' Hs].
      by eapply step_true_not_accepting.
  - intros self self' input_string max_steps calls _.
    rewrite get_result_spec.
    destruct (decide (current_state self' ∈ accept_states self')) as [H|H].
    + rewrite bool_decide_true by done. split; split; done.
    + rewrite bool_decide_false by done. split; split; done.
Qed.

Lemma spinning_step self :
  spinning self → ∃ self', step self = Returns true self' ∧ spinning self'.
Proof.
  intros (Htf & Hacc & Hq & tp & Htp & Hblank).
  assert (current_state self ∉ accept_states self) as Hna
    by (rewrite Hacc; apply not_elem_of_empty).
  assert (TransitionFunction.get_transition (transition_function self)
            (current_state self) (Tape.cell tp (Tape.head_position tp))
          = Some ("q0", "_", "R")) as Htr
    by (by rewrite Htf, Hq, Hblank).
  destruct (step_fires self tp _ _ _ Htp Hna Htr (or_intror eq_refl))
    as (tp' & E & [(_ & _ & _ & _ & Hc) _] & _).
  eexists. split; [exact E |].
  split_and!; [done | done | done |].
  exists tp'. split; [done |]. intros i. rewrite <- Hc.
  unfold Tape.cell, fired_tape. simpl.
  destruct (decide (Tape.head_position tp = i)) as [->|].
  - by rewrite lookup_insert_eq.
  - rewrite lookup_insert_ne by done. apply Hblank.
Qed.

Lemma spinner_never_halts :
  never_halts (final_state (reset "" spinner)).
Proof.
  assert (spinning (final_state (reset "" spinner))) as H0.
  { destruct (reset_valid "" spinner) as (tp & E & [(_ & _ & _ & _ & Hc) _] & _);
      [by constructor |].
    rewrite E. split_and!; [reflexivity | reflexivity | reflexivity |].
    exists tp. split; [reflexivity |]. intros i.
    rewrite <- Hc, cell_init.
    rewrite decide_False by (unfold len; simpl; lia). reflexivity. }
  intros k. revert H0. generalize (final_state (reset "" spinner)).
  induction k as [|k IH]; intros m Hm.
  - destruct (spinning_step m Hm) as (m' & E & _). by exists m'.
  - rewrite after_steps_S. destruct (spinning_step m Hm) as (m' & E & Hm').
    rewrite E. by apply IH.
Qed.

Lemma run_budget_and_classification_witness :
  ∃ self', run "" 5 spinner = Returns 5%nat self' ∧
           step_count self' = 5 ∧
           get_result self' = Returns "Rechaza" self' ∧
           current_state self' ∉ accept_states self'.
Proof.
  destruct run_budget_and_classification as [Hbudget Hclass].
  destruct (Hbudget spinner (final_state (reset "" spinner)) "" 5%nat)
    as (self' & Hrun & _ & Hcount & Hres).
  - vm_compute; reflexivity.
  - apply spinner_never_halts.
  - exists self'. split_and!; [exact Hrun | exact Hcount | exact Hres |].
    by apply (Hclass spinner self' "" 5 5%nat Hrun).
Defined.

(** * Further properties *)

(** ** The tape *)

(** X1. [read] never raises.  It returns the symbol stored at the head, or
    the blank symbol when nothing is stored there; in that case the blank
    symbol is stored under the head's key, and everything else, as well as
    everything the tape shows, is as before. *)
Theorem read_total (tp : Tape.t) :
  ∃ tp', Tape.read tp = Returns (Tape.cell tp (Tape.head_position tp)) tp' ∧
         same tp tp' ∧
         (Tape.tape tp !! Tape.head_position tp = None →
          Tape.cell tp (Tape.head_position tp) = Tape.blank_symbol tp ∧
          tp' = Tape.set_tape (<[Tape.head_position tp := Tape.blank_symbol tp]>
                                 (Tape.tape tp)) tp) ∧
         (is_Some (Tape.tape tp !! Tape.head_position tp) → tp' = tp).
Proof.
  unfold Tape.read, bind, get, Tape.getitem, Tape.cell.
  destruct (Tape.tape tp !! Tape.head_position tp) as [v|] eqn:E.
  - exists tp. split_and!; [done | apply same_refl | done | done].
  - eexists. split_and!; [done | | done | by intros [? ?]].
    split_and!; try done. intros i. unfold Tape.cell. simpl.
    destruct (decide (Tape.head_position tp = i)) as [<-|].
    + by rewrite lookup_insert_eq, E.
    + by rewrite lookup_insert_ne.
Qed.

Lemma read_total_witness :
  let tp := Tape.mk "_" {[ 0 := "a" ]} 1 0 1 in
  Tape.read tp = Returns "_" (Tape.mk "_" (<[1 := "_"]> {[ 0 := "a" ]}) 1 0 1).
Proof.
  intros tp. destruct (read_total tp) as (tp' & E & _ & Hnew & _).
  destruct Hnew as [Hb ->]; [done |]. by rewrite E, Hb.
Defined.

(** X2. Reading back what was written: after [write(symbol)], [read]
    returns [symbol] and changes nothing, not even the dictionary. *)
Theorem write_then_read (symbol : string) (tp : Tape.t) :
  ∃ tp', Tape.write symbol tp = Returns tt tp' ∧
         Tape.read tp' = Returns symbol tp' ∧
         Tape.head_position tp' = Tape.head_position tp ∧
         ∀ i, i ≠ Tape.head_position tp → Tape.cell tp' i = Tape.cell tp i.
Proof.
  eexists. split; [apply write_spec |]. split_and!; [| done |].
  - unfold Tape.read, bind, get, Tape.getitem. simpl.
    by rewrite lookup_insert_eq.
  - intros i Hi. unfold Tape.cell. simpl. by rewrite lookup_insert_ne.
Qed.

Lemma moves_S direction n tp :
  moves direction (S n) tp =
    match Tape.move direction tp with
    | Returns _ tp' => moves direction n tp'
    | Raises e tp' => Raises e tp'
    end.
Proof. reflexivity. Qed.

(** X3. Tape growth.  On a tape whose bounds include the head, [n] moves to
    the left put the head [n] cells to the left and lower the leftmost
    bound to the new head position when that is further left; [n] moves to
    the right do the same on the right.  The other bound, the stored cells
    and the blank symbol are as before. *)
Theorem tape_growth (tp : Tape.t) (n : nat) :
  bounds_include_head tp →
  moves "L" n tp =
    Returns tt (Tape.mk (Tape.blank_symbol tp) (Tape.tape tp)
                  (Tape.head_position tp - Z.of_nat n)
                  (Tape.leftmost tp `min` (Tape.head_position tp - Z.of_nat n))
                  (Tape.rightmost tp)) ∧
  moves "R" n tp =
    Returns tt (Tape.mk (Tape.blank_symbol tp) (Tape.tape tp)
                  (Tape.head_position tp + Z.of_nat n)
                  (Tape.leftmost tp)
                  (Tape.rightmost tp `max` (Tape.head_position tp + Z.of_nat n))).
Proof.
  revert tp. induction n as [|n IH]; intros tp Hb; unfold bounds_include_head in *.
  - destruct tp as [b d h l r]. simpl in *. split; unfold moves; simpl; unfold ret;
      do 2 f_equal; lia.
  - rewrite !moves_S, move_L, move_R. split.
    + destruct (IH (Tape.mk (Tape.blank_symbol tp) (Tape.tape tp)
                      (Tape.head_position tp - 1)
                      (Tape.leftmost tp `min` (Tape.head_position tp - 1))
                      (Tape.rightmost tp `max` (Tape.head_position tp - 1))))
        as [-> _]; simpl; [lia |].
      do 2 f_equal; lia.
    + destruct (IH (Tape.mk (Tape.blank_symbol tp) (Tape.tape tp)
                      (Tape.head_position tp + 1)
                      (Tape.leftmost tp `min` (Tape.head_position tp + 1))
                      (Tape.rightmost tp `max` (Tape.head_position tp + 1))))
        as [_ ->]; simpl; [lia |].
      do 2 f_equal; lia.
Qed.

Lemma tape_growth_witness :
  let tp := Tape.__init__ "01" "_" in
  (∃ tp', moves "L" 3 tp = Returns tt tp' ∧ Tape.leftmost tp' = -3 ∧
          Tape.rightmost tp' = 1) ∧
  (∃ tp', moves "R" 3 tp = Returns tt tp' ∧ Tape.leftmost tp' = 0 ∧
          Tape.rightmost tp' = 3).
Proof.
  intros tp.
  destruct (tape_growth tp 3) as [HL HR].
  - unfold bounds_include_head. by_evaluation.
  - split; eexists; (split; [eassumption |]); by split.
Defined.

Lemma map_each_getitem_stored l tp :
  (∀ i, i ∈ l → is_Some (Tape.tape tp !! i)) →
  map_each l Tape.getitem tp = Returns (Tape.cell tp <$> l) tp.
Proof.
  induction l as [|i l IH]; intros Hl; [done |].
  simpl. unfold bind at 1.
  destruct (getitem_spec i tp) as (tp' & E & _ & _ & K).
  rewrite E, (K (Hl i ltac:(by left))).
  unfold bind at 1. rewrite IH; [done |].
  intros j Hj. apply Hl. by right.
Qed.

(** X4. [get_tape_string] never raises and shows the tape without changing
    what it holds: the symbols, the head and the bounds are as before, and
    the string depends on them only.  It stores the blank cells of the
    window it shows; a second call returns the same string and changes
    nothing at all. *)
Theorem get_tape_string_pure (context : Z) (tp : Tape.t) :
  ∃ tp', Tape.get_tape_string context tp = Returns (rendering context tp) tp' ∧
         same tp tp' ∧
         Tape.get_tape_string context tp' = Returns (rendering context tp) tp'.
Proof.
  unfold Tape.get_tape_string.
  set (start := Tape.leftmost tp `min` (Tape.head_position tp - context)).
  set (end_ := Tape.rightmost tp `max` (Tape.head_position tp + context)).
  destruct (map_each_getitem_spec (range start (end_ + 1)) tp)
    as (tp' & E & [X _] & K).
  pose proof X as (Hb & Hh & Hl & Hr & Hc).
  exists tp'. split_and!; [| done |].
  - unfold bind at 1, get at 1. fold start end_.
    unfold bind at 1. rewrite E. unfold bind, get, ret, rendering.
    fold start end_. by rewrite <- Hh.
  - unfold bind at 1, get at 1. rewrite <- Hh, <- Hl, <- Hr. fold start end_.
    unfold bind at 1. rewrite (map_each_getitem_stored _ _ K).
    unfold bind, get, ret, rendering. fold start end_. rewrite <- Hh.
    do 4 f_equal. apply list_fmap_ext. intros _ i _. symmetry. apply Hc.
Qed.

Lemma string_append_assoc (a b c : string) : (a +:+ b) +:+ c = a +:+ b +:+ c.
Proof.
  induction a as [|x a IH]; [done |].
  change (String x ((a +:+ b) +:+ c) = String x (a +:+ b +:+ c)). by f_equal.
Qed.

Lemma string_length_append (a b : string) :
  String.length (a +:+ b) = (String.length a + String.length b)%nat.
Proof.
  induction a as [|x a IH]; [done |].
  change (S (String.length (a +:+ b)) = S (String.length a + String.length b)).
  by f_equal.
Qed.

(** The characters of a concatenation of one-character strings. *)
Lemma join_singletons (l : list string) :
  (∀ x, x ∈ l → String.length x = 1%nat) →
  String.length (join l) = length l ∧
  ∀ k x, l !! k = Some x → String.get k (join l) = String.get 0 x.
Proof.
  induction l as [|y l IH]; intros Hl; [done |].
  destruct IH as [IHlen IHget]; [intros x Hx; apply Hl; by right |].
  pose proof (Hl y ltac:(by left)) as Hy.
  destruct y as [|a [|? ?]]; try done.
  change (join (String a "" :: l)) with (String a (join l)).
  split; [simpl; by rewrite IHlen |].
  intros [|k] x Hx; simpl in Hx.
  - by injection Hx as <-.
  - simpl. by apply IHget.
Qed.

Lemma str_mul_spaces (n : Z) :
  0 ≤ n → "       " +:+ str_mul " " n = str_mul " " (7 + n).
Proof.
  intros Hn. unfold str_mul.
  replace (Z.to_nat (7 + n)) with (7 + Z.to_nat n)%nat by lia.
  reflexivity.
Qed.

Lemma length_str_mul_space (n : Z) :
  String.length (str_mul " " n) = Z.to_nat n.
Proof.
  unfold str_mul. induction (Z.to_nat n) as [|k IH]; [done |].
  change (S (String.length (join (replicate k " "))) = S k). by f_equal.
Qed.

(** X5. The head marker is under the head's symbol.  With a non-negative
    context, when every symbol in the window is one character long, the
    string of [get_tape_string] has two lines: the first is the label
    ["Cinta: "] followed by one character per cell of the window, which
    runs from [min leftmost (head - context)] to [max rightmost (head +
    context)]; the second is made of spaces up to the column of the head's
    cell, where it has the marker ["^"]. *)
Theorem rendering_alignment (context : Z) (tp : Tape.t) :
  let start := Tape.leftmost tp `min` (Tape.head_position tp - context) in
  let end_ := Tape.rightmost tp `max` (Tape.head_position tp + context) in
  let column := 7 + (Tape.head_position tp - start) in
  0 ≤ context →
  (∀ i, start ≤ i ≤ end_ → String.length (Tape.cell tp i) = 1%nat) →
  ∃ line1 line2,
    rendering context tp = line1 +:+ newline +:+ line2 ∧
    String.length line1 = Z.to_nat (7 + (end_ - start + 1)) ∧
    String.get (Z.to_nat column) line1 =
      String.get 0 (Tape.cell tp (Tape.head_position tp)) ∧
    line2 = str_mul " " column +:+ "^" ∧
    String.length line2 = S (Z.to_nat column).
Proof.
  intros start end_ column Hc Hone.
  set (window := range start (end_ + 1)).
  assert (∀ x, x ∈ Tape.cell tp <$> window → String.length x = 1%nat) as Hw.
  { intros x (i & -> & Hi)%list_elem_of_fmap. apply Hone.
    apply elem_of_seqZ in Hi. lia. }
  destruct (join_singletons _ Hw) as [Hlen Hget].
  exists ("Cinta: " +:+ join (Tape.cell tp <$> window)),
         (str_mul " " column +:+ "^").
  split_and!.
  - unfold rendering. fold start end_ window.
    rewrite string_append_assoc. do 2 f_equal.
    unfold column. rewrite <- str_mul_spaces by lia.
    by rewrite string_append_assoc.
  - rewrite string_length_append, Hlen, length_fmap.
    unfold window, range. rewrite length_seqZ. simpl. lia.
  - replace (Z.to_nat column)
      with (Z.to_nat (Tape.head_position tp - start) + String.length "Cinta: ")%nat
      by (unfold column; simpl; lia).
    rewrite <- String.append_correct2.
    apply Hget. rewrite list_lookup_fmap.
    unfold window, range. rewrite lookup_seqZ_lt by lia. simpl.
    f_equal. f_equal. lia.
  - done.
  - rewrite string_length_append, length_str_mul_space. simpl. lia.
Qed.

Lemma rendering_alignment_witness :
  let tp := Tape.mk "_" {[ 0 := "a"; 1 := "b"; 2 := "c" ]} 1 0 2 in
  rendering 2 tp = "Cinta: _abc_" +:+ newline +:+ "         ^".
Proof.
  intros tp.
  destruct (rendering_alignment 2 tp) as (line1 & line2 & E & _ & _ & -> & _).
  - lia.
  - intros i Hi. simpl in Hi.
    assert (i = -1 ∨ i = 0 ∨ i = 1 ∨ i = 2 ∨ i = 3) as [->|[->|[->|[->| ->]]]]
      by lia; reflexivity.
  - reflexivity.
Defined.

(** ** The transition table *)

Lemma add_transition_valid q a q' b d table :
  d = "L" ∨ d = "R" →
  TransitionFunction.add_transition q a q' b d table =
    Returns tt (TransitionFunction.mk
                  (<[(q, a) := (q', b, d)]> (TransitionFunction.transitions table))).
Proof.
  intros Hd. unfold TransitionFunction.add_transition, bind at 1.
  rewrite bool_decide_false; [done |].
  intros Hn. apply Hn. rewrite !elem_of_cons. tauto.
Qed.

Lemma add_transition_invalid q a q' b d table :
  d ≠ "L" → d ≠ "R" →
  TransitionFunction.add_transition q a q' b d table =
    Raises (InvalidDirection d) table.
Proof.
  intros HL HR. unfold TransitionFunction.add_transition, bind at 1.
  rewrite bool_decide_true; [done |].
  rewrite !not_elem_of_cons. split_and!; [done | done | apply not_elem_of_nil].
Qed.

(** X6. Insert and look up.  [add_transition] with direction ["L"] or
    ["R"] returns; afterwards [get_transition] finds the triple under the
    pair of state and symbol, [has_transition] is true for it, and every
    other pair is looked up as before. *)
Theorem add_then_get (q a q' b d : string) (table : TransitionFunction.t) :
  d = "L" ∨ d = "R" →
  ∃ table', TransitionFunction.add_transition q a q' b d table = Returns tt table' ∧
    TransitionFunction.get_transition table' q a = Some (q', b, d) ∧
    TransitionFunction.has_transition table' q a = true ∧
    ∀ q2 a2, (q2, a2) ≠ (q, a) →
      TransitionFunction.get_transition table' q2 a2 =
        TransitionFunction.get_transition table q2 a2 ∧
      TransitionFunction.has_transition table' q2 a2 =
        TransitionFunction.has_transition table q2 a2.
Proof.
  intros Hd. eexists. split; [by apply add_transition_valid |].
  unfold TransitionFunction.get_transition, TransitionFunction.has_transition.
  simpl. rewrite lookup_insert_eq. split_and!; [done | |].
  - apply bool_decide_eq_true_2. eauto.
  - intros q2 a2 Hne. by rewrite lookup_insert_ne.
Qed.

Lemma add_then_get_witness :
  ∃ table',
    TransitionFunction.add_transition "q0" "0" "q1" "X" "R"
      TransitionFunction.__init__ = Returns tt table' ∧
    TransitionFunction.get_transition table' "q0" "0" = Some ("q1", "X", "R") ∧
    TransitionFunction.get_transition table' "q0" "1" = None.
Proof.
  destruct (add_then_get "q0" "0" "q1" "X" "R" TransitionFunction.__init__)
    as (table' & E & Hget & _ & Hother); [by right |].
  exists table'. split_and!; [done | done |].
  destruct (Hother "q0" "1") as [-> _]; [by intros [=] | done].
Defined.

(** X7. [add_transition] raises exactly when the direction is neither
    ["L"] nor ["R"] (lower case is refused too); the exception is then the
    one for an invalid direction and the table is as before. *)
Theorem add_rejects_direction (q a q' b d : string) (table : TransitionFunction.t) :
  ((∃ e table', TransitionFunction.add_transition q a q' b d table
                  = Raises e table') ↔ d ≠ "L" ∧ d ≠ "R") ∧
  (∀ e table', TransitionFunction.add_transition q a q' b d table
                 = Raises e table' →
     e = InvalidDirection d ∧ table' = table).
Proof.
  destruct (decide (d = "L" ∨ d = "R")) as [Hd|Hd].
  - rewrite add_transition_valid by done. split; [split |].
    + by intros (? & ? & ?).
    + tauto.
    + by intros ? ? ?.
  - rewrite add_transition_invalid by tauto. split; [split |].
    + tauto.
    + eauto.
    + by intros ? ? [= <- <-].
Qed.

Lemma add_rejects_direction_witness :
  TransitionFunction.add_transition "q0" "0" "q1" "X" "r"
    (final_state (build_table balanced_01_transitions)) =
  Raises (InvalidDirection "r") (final_state (build_table balanced_01_transitions)).
Proof.
  destruct (add_rejects_direction "q0" "0" "q1" "X" "r"
              (final_state (build_table balanced_01_transitions)))
    as [[_ Hraise] Hkeep].
  destruct Hraise as (e & table' & E); [done |].
  rewrite E. by destruct (Hkeep e table' E) as [-> ->].
Defined.

(** X8. The last entry wins: adding an entry for a pair that already has
    one replaces it, and the table is the one that the second call alone
    would have produced. *)
Theorem add_overwrites (q a q1 b1 d1 q2 b2 d2 : string)
    (table : TransitionFunction.t) :
  d1 = "L" ∨ d1 = "R" → d2 = "L" ∨ d2 = "R" →
  (TransitionFunction.add_transition q a q1 b1 d1 >>
   TransitionFunction.add_transition q a q2 b2 d2) table =
  TransitionFunction.add_transition q a q2 b2 d2 table.
Proof.
  intros H1 H2. unfold bind at 1.
  rewrite !add_transition_valid by done. simpl.
  by rewrite insert_insert_eq.
Qed.

Lemma add_overwrites_witness :
  let table := final_state (build_table balanced_01_transitions) in
  ∃ table',
    (TransitionFunction.add_transition "q0" "0" "q1" "X" "R" >>
     TransitionFunction.add_transition "q0" "0" "q4" "0" "L") table
      = Returns tt table' ∧
    TransitionFunction.get_transition table' "q0" "0" = Some ("q4", "0", "L").
Proof.
  intros table. rewrite add_overwrites; [| by right | by left].
  rewrite add_transition_valid by (by left).
  eexists. split; [done |].
  unfold TransitionFunction.get_transition. simpl. by rewrite lookup_insert_eq.
Defined.

Lemma for_each_add_valid entries table :
  directions_valid table →
  directions_valid
    (final_state
       (for_each entries (λ '(q, a, q', b, d),
          TransitionFunction.add_transition q a q' b d) table)).
Proof.
  revert table. induction entries as [|[[[[q a] q'] b] d] entries IH];
    intros table Hv; [done |].
  simpl. unfold bind at 1.
  destruct (decide (d = "L" ∨ d = "R")) as [Hd|Hd].
  - rewrite add_transition_valid by done. apply IH.
    intros key next_state write_symbol direction. simpl.
    destruct (decide (key = (q, a))) as [->|Hne].
    + rewrite lookup_insert_eq. by intros [= <- <- <-].
    + rewrite lookup_insert_ne by done. apply Hv.
  - rewrite add_transition_invalid by tauto. done.
Qed.

Lemma build_table_valid entries :
  directions_valid (final_state (build_table entries)).
Proof.
  unfold build_table. apply for_each_add_valid.
  intros key ? ? ?. unfold TransitionFunction.__init__. simpl.
  by rewrite lookup_empty.
Qed.

(** X9. A table built from the empty one with [add_transition] holds only
    the directions ["L"] and ["R"], whatever the entries were and whether
    or not every call returned. *)
Theorem built_table_directions
    (entries : list (string * string * string * string * string)) :
  directions_valid (final_state (build_table entries)).
Proof. apply build_table_valid. Qed.

(** X10. With such a table [step] raises nothing on an initialized
    machine: it returns [True] or [False]. *)
Theorem step_returns (self : t) :
  is_Some (tape self) →
  directions_valid (transition_function self) →
  ∃ progress self', step self = Returns progress self'.
Proof.
  intros [tp Htp] Hv. destruct (step_ok self) as [| | | |????? _ _ Htr HL HR];
    eauto; [congruence |].
  apply Hv in Htr. tauto.
Qed.

Lemma step_returns_witness :
  ∃ progress self',
    step (final_state (reset "0011" balanced_01)) = Returns progress self'.
Proof.
  apply step_returns.
  - vm_compute. eauto.
  - apply (build_table_valid balanced_01_transitions).
Defined.

(** ** The machine *)

Lemma same_definition_refl a : same_definition a a.
Proof. by repeat split. Qed.

Lemma same_definition_trans a b c :
  same_definition a b → same_definition b c → same_definition a c.
Proof.
  intros (? & ? & ? & ? & ? & ? & ?) (? & ? & ? & ? & ? & ? & ?).
  split_and!; congruence.
Qed.

Lemma with_run_state_same a b q tp n h :
  same_definition a b → with_run_state a q tp n h = with_run_state b q tp n h.
Proof.
  intros (? & ? & ? & ? & ? & ? & ?). unfold with_run_state. congruence.
Qed.

Lemma step_same_definition self : same_definition self (final_state (step self)).
Proof. destruct (step_ok self); by repeat split. Qed.

Lemma reset_same_definition input_string self :
  same_definition self (final_state (reset input_string self)).
Proof.
  destruct (decide (Forall (λ c, c ∈ input_alphabet self) (chars input_string)))
    as [Hv|Hv].
  - destruct (reset_valid _ _ Hv) as (tp' & -> & _). by repeat split.
  - destruct (reset_invalid _ _ Hv) as (c & _ & _ & ->). apply same_definition_refl.
Qed.

Lemma run_loop_same_definition fuel max_steps self :
  same_definition self (final_state (run_loop fuel max_steps self)).
Proof.
  revert self. induction fuel as [|fuel IH]; intros self;
    rewrite run_loop_unfold; case_bool_decide; try apply same_definition_refl.
  pose proof (step_same_definition self) as Hs.
  destruct (step self) as [[] self1|e self1]; simpl in *; [| done | done].
  pose proof (IH self1) as H1.
  destruct (run_loop fuel max_steps self1); simpl in *;
    by eapply same_definition_trans.
Qed.

Lemma run_same_definition input_string max_steps self :
  same_definition self (final_state (run input_string max_steps self)).
Proof.
  unfold run, bind.
  pose proof (reset_same_definition input_string self) as Hr.
  destruct (reset input_string self) as [[] self0|e self0]; simpl in *; [| done].
  eapply same_definition_trans; [done | apply run_loop_same_definition].
Qed.

(** X11. The definition is frozen: [step], [reset] and [run] never change
    the states, the alphabets, the table, the initial state, the blank
    symbol or the accept states, whether they return or raise. *)
Theorem definition_is_frozen (self : t) (input_string : string) (max_steps : Z) :
  same_definition self (final_state (step self)) ∧
  same_definition self (final_state (reset input_string self)) ∧
  same_definition self (final_state (run input_string max_steps self)).
Proof.
  split_and!; [apply step_same_definition | apply reset_same_definition
              | apply run_same_definition].
Qed.

Lemma step_false_again self self' :
  step self = Returns false self' → step self' = Returns false self'.
Proof.
  intros E.
  destruct (step_ok self) as [|tp|tp tp' Htp Hacc Hno [X _] Hst _| |];
    simplify_eq; [by eapply step_accepting |].
  assert (TransitionFunction.get_transition (transition_function self)
            (current_state self) (Tape.cell tp' (Tape.head_position tp'))
          = None) as Hno'.
  { destruct X as (_ & <- & _ & _ & <-). exact Hno. }
  destruct (step_stuck (set_tape (Some tp') self) tp' eq_refl Hacc Hno')
    as (tp'' & E' & _ & _ & K).
  by rewrite E', (K Hst).
Qed.

(** X12. A halted machine stays halted: when [step] has returned [False],
    every further call returns [False] and changes nothing, not even the
    dictionary of the tape. *)
Theorem halting_is_stable (self self' : t) (n : nat) :
  step self = Returns false self' →
  step self' = Returns false self' ∧ after_steps n self' = self'.
Proof.
  intros Hs%step_false_again. split; [done |].
  induction n as [|n IH]; [done |].
  by rewrite after_steps_S, Hs.
Qed.

Lemma halting_is_stable_witness :
  let self := final_state (reset "1" balanced_01) in
  step (final_state (step self)) = Returns false (final_state (step self)).
Proof.
  intros self.
  apply (halting_is_stable self (final_state (step self)) 0).
  vm_compute; reflexivity.
Defined.

Lemma step_false_count self self' :
  step self = Returns false self' → step_count self' = step_count self.
Proof. intros E. destruct (step_ok self); by simplify_eq. Qed.

Lemma run_loop_returns fuel max_steps self calls self' :
  run_loop fuel max_steps self = Returns calls self' →
  self' = after_steps calls self ∧
  ((Z.of_nat calls = step_count self' - step_count self ∧
    max_steps ≤ step_count self' ∧
    (step_count self < max_steps → step_count self' = max_steps) ∧
    (max_steps ≤ step_count self → calls = 0%nat)) ∨
   (Z.of_nat calls = step_count self' - step_count self + 1 ∧
    step_count self' < max_steps ∧
    step self' = Returns false self')).
Proof.
  revert self calls. induction fuel as [|fuel IH]; intros self calls;
    rewrite run_loop_unfold; case_bool_decide as Hlt; try done.
  1, 3: intros [= <- <-]; (split; [done |]); left; split_and!; lia.
  destruct (step self) as [[] self1|e self1] eqn:Es; [| | done].
  - destruct (run_loop fuel max_steps self1) as [c self2|] eqn:El; [| done].
    intros [= <- <-]. destruct (IH _ _ El) as (-> & Hexit).
    pose proof (step_true_count _ _ Es) as Hc.
    split; [by rewrite after_steps_S, Es |].
    destruct Hexit as [(? & ? & ? & ?)|(? & ? & ?)]; [left | right].
    + split_and!; lia.
    + split_and!; [lia | lia | done].
  - intros [= <- <-]. pose proof (step_false_count _ _ Es) as Hc.
    split; [by rewrite after_steps_S, Es |]. right.
    split_and!; [lia | lia |].
    by apply (step_false_again self).
Qed.

Lemma run_returns_after_steps (self self' : t) (input_string : string)
    (max_steps : Z) (calls : nat) :
  run input_string max_steps self = Returns calls self' →
  ∃ self0, reset input_string self = Returns tt self0 ∧
           self' = after_steps calls self0 ∧
           run_exit max_steps calls self'.
Proof.
  unfold run, bind. intros E.
  destruct (reset input_string self) as [[] self0|] eqn:Er; [| done].
  exists self0. split; [done |].
  destruct (run_loop_returns _ _ _ _ _ E) as (-> & Hexit).
  split; [done |].
  assert (step_count self0 = 0) as H0.
  { destruct (reset_valid input_string self (reset_returns _ _ _ Er))
      as (tp' & E' & _).
    rewrite Er in E'. by injection E' as ->. }
  destruct Hexit as [(? & ? & ? & ?)|(? & ? & ?)].
  - apply exit_budget; lia.
  - apply exit_halted; [lia | lia | done].
Qed.

(** X13. What [run] amounts to.  When [run] returns, [reset] has returned
    and the machine is the one that [calls] calls of [step] after that
    [reset] produce, [calls] being the number of calls the loop made.
    Either the budget ended the loop: every call made progress, and the
    step counter is [max_steps] unless no call was made; or the last call
    returned [False]: it is the only one that made no progress, the counter
    is below [max_steps], and the machine is halted. *)
Theorem run_decomposition (self self' : t) (input_string : string)
    (max_steps : Z) (calls : nat) :
  run input_string max_steps self = Returns calls self' →
  ∃ self0, reset input_string self = Returns tt self0 ∧
           self' = after_steps calls self0 ∧
           run_exit max_steps calls self'.
Proof. apply run_returns_after_steps. Qed.

Lemma run_decomposition_witness :
  let self' := final_state (run "" 10 balanced_01) in
  ∃ self0, reset "" balanced_01 = Returns tt self0 ∧
           self' = after_steps 3 self0 ∧
           run_exit 10 3 self'.
Proof.
  intros self'. apply (run_decomposition balanced_01 self' "" 10 3).
  vm_compute; reflexivity.
Defined.

(** X18. A budget of zero or less: [run] makes no call of [step]; it is
    [reset] alone. *)
Theorem run_without_budget (self : t) (input_string : string) (max_steps : Z) :
  max_steps ≤ 0 →
  run input_string max_steps self =
    match reset input_string self with
    | Returns _ self0 => Returns 0%nat self0
    | Raises e self0 => Raises e self0
    end.
Proof.
  intros Hm. unfold run, bind.
  destruct (reset input_string self) as [[] self0|] eqn:Er; [| done].
  rewrite run_loop_unfold, bool_decide_false; [done |].
  destruct (reset_valid input_string self (reset_returns _ _ _ Er))
    as (tp' & E' & _).
  rewrite Er in E'. injection E' as ->. simpl. lia.
Qed.

Lemma run_without_budget_witness :
  ∃ self0, run "01" (-1) balanced_01 = Returns 0%nat self0 ∧
           get_result self0 = Returns "Rechaza" self0.
Proof.
  rewrite run_without_budget by lia.
  destruct (reset_valid "01" balanced_01) as (tp & -> & _); [by_evaluation |].
  eexists. split; [done |]. by rewrite get_result_spec.
Defined.

Lemma step_raises self e self' :
  step self = Raises e self' →
  (e = NotInitialized ∧ tape self = None) ∨
  (∃ d, e = InvalidDirection d ∧ ¬ directions_valid (transition_function self)).
Proof.
  intros E.
  destruct (step_ok self) as [| | | |tp tp' q' b d _ _ Htr HL HR _];
    simplify_eq; [by left |].
  right. exists d. split; [done |]. intros Hv. apply Hv in Htr. tauto.
Qed.

Lemma run_loop_raises fuel max_steps self e self' :
  run_loop fuel max_steps self = Raises e self' →
  is_Some (tape self) →
  max_steps - step_count self ≤ Z.of_nat fuel →
  ∃ d, e = InvalidDirection d ∧ ¬ directions_valid (transition_function self).
Proof.
  revert self e self'. induction fuel as [|fuel IH]; intros self e self';
    rewrite run_loop_unfold; case_bool_decide as Hlt; try done.
  { intros _ _ ?. lia. }
  intros E Htp Hfuel.
  pose proof (step_same_definition self) as (_ & _ & _ & Htf & _).
  pose proof (step_initialized self Htp) as Htp1.
  destruct (step self) as [[] self1|e1 self1] eqn:Es; simpl in *; [| done |].
  - destruct (run_loop fuel max_steps self1) as [|e2 self2] eqn:El; [done |].
    injection E as -> ->.
    destruct (IH _ _ _ El) as (d & -> & Hv); [done | |].
    + rewrite (step_true_count _ _ Es). lia.
    + exists d. split; [done |]. by rewrite Htf.
  - injection E as -> ->.
    destruct (step_raises _ _ _ Es) as [[_ Hnone]|?]; [| done].
    rewrite Hnone in Htp. by destruct Htp.
Qed.

Lemma run_returns input_string max_steps self :
  Forall (λ c, c ∈ input_alphabet self) (chars input_string) →
  directions_valid (transition_function self) →
  ∃ calls self', run input_string max_steps self = Returns calls self'.
Proof.
  intros Hv Hd.
  destruct (run input_string max_steps self) as [calls self'|e self'] eqn:E;
    [by eauto |].
  revert E. unfold run, bind.
  destruct (reset_valid _ _ Hv) as (tp' & -> & _). intros E.
  apply run_loop_raises in E as (d & _ & Hn); [done | by eexists |].
  simpl. lia.
Qed.

(** X14. The exceptions of [run].  [run] raises on an input string with a
    character outside the input alphabet, leaving the machine as it was,
    and on reaching a table entry whose direction is neither ["L"] nor
    ["R"]; it raises in no other case.  So with a table built by
    [add_transition] and an input string over the input alphabet, [run]
    returns, whatever the budget. *)
Theorem run_exceptions (self : t) (input_string : string) (max_steps : Z) :
  (∀ e self', run input_string max_steps self = Raises e self' →
     (∃ c, e = InvalidSymbol c ∧ c ∈ chars input_string ∧
           (c ∉ input_alphabet self) ∧ self' = self) ∨
     (∃ d, e = InvalidDirection d ∧
           ¬ directions_valid (transition_function self))) ∧
  (Forall (λ c, c ∈ input_alphabet self) (chars input_string) →
   directions_valid (transition_function self) →
   ∃ calls self', run input_string max_steps self = Returns calls self').
Proof.
  assert (∀ e self', run input_string max_steps self = Raises e self' →
     (∃ c, e = InvalidSymbol c ∧ c ∈ chars input_string ∧
           (c ∉ input_alphabet self) ∧ self' = self) ∨
     (∃ d, e = InvalidDirection d ∧
           ¬ directions_valid (transition_function self))) as Hraise.
  { intros e self'. unfold run, bind.
    destruct (decide (Forall (λ c, c ∈ input_alphabet self) (chars input_string)))
      as [Hv|Hv].
    - destruct (reset_valid _ _ Hv) as (tp' & -> & _). intros E. right.
      apply run_loop_raises in E as (d & -> & Hd); [by exists d | by eexists |].
      simpl. lia.
    - destruct (reset_invalid _ _ Hv) as (c & Hin & Hout & ->).
      intros [= <- <-]. left. by exists c. }
  split; [done |].
  intros Hv Hd.
  destruct (run input_string max_steps self) as [calls self'|e self'] eqn:E;
    [by eauto |].
  destruct (Hraise e self' eq_refl) as [(c & _ & Hin & Hout & _)|(d & _ & Hn)].
  - rewrite Forall_forall in Hv. by destruct Hout; apply Hv.
  - done.
Qed.

Lemma run_exceptions_witness :
  (∃ calls self', run "0101" 4 balanced_01 = Returns calls self') ∧
  run "0121" 4 balanced_01 = Raises (InvalidSymbol "2") balanced_01.
Proof.
  destruct (run_exceptions balanced_01 "0101" 4) as [_ Hret].
  destruct (run_exceptions balanced_01 "0121" 4) as [Hraise _].
  split.
  - apply Hret; [by_evaluation |].
    apply (build_table_valid balanced_01_transitions).
  - destruct (run "0121" 4 balanced_01) as [calls self'|e self'] eqn:E.
    + exfalso. revert E. unfold run, bind.
      destruct (reset_invalid "0121" balanced_01) as (c & _ & _ & ->); [| done].
      by_evaluation.
    + destruct (Hraise e self' eq_refl)
        as [(c & -> & Hin & Hout & ->)|(d & _ & Hn)].
      * do 2 f_equal.
        apply list_elem_of_fmap in Hin as (a & -> & Hin). simpl in Hin.
        repeat (apply elem_of_cons in Hin as [->|Hin];
                [try done; by destruct Hout; by_evaluation |]).
        by apply elem_of_nil in Hin.
      * destruct Hn. apply (build_table_valid balanced_01_transitions).
Defined.

Lemma reset_same_outcome (a b : t) (input_string : string) :
  same_definition a b →
  Forall (λ c, c ∈ input_alphabet a) (chars input_string) →
  reset input_string a = reset input_string b.
Proof.
  intros Hab Hv. rewrite !reset_unfold.
  pose proof Hab as (_ & HΣ & _ & _ & Hq & Hb & _).
  destruct (check_symbols_spec (chars input_string) a)
    as [[_ ->]|(c & Hin & Hout & _)].
  2: { rewrite Forall_forall in Hv. by destruct Hout; apply Hv. }
  destruct (check_symbols_spec (chars input_string) b)
    as [[_ ->]|(c & Hin & Hout & _)].
  2: { rewrite Forall_forall in Hv. rewrite <- HΣ in Hout.
       by destruct Hout; apply Hv. }
  by rewrite Hq, Hb, (with_run_state_same a b).
Qed.

(** X15. [reset] forgets the previous run: on an input string over the
    input alphabet, its outcome depends on the definition of the machine
    only, not on the current state, tape, counter or history.  So a [reset]
    after any run gives what it gives on the machine just constructed. *)
Theorem reset_forgets_run (a b : t) (input_string : string) :
  same_definition a b →
  Forall (λ c, c ∈ input_alphabet a) (chars input_string) →
  reset input_string a = reset input_string b.
Proof. apply reset_same_outcome. Qed.

Lemma reset_forgets_run_witness :
  reset "01" (final_state (run "0011" 7 balanced_01)) = reset "01" balanced_01.
Proof.
  symmetry. apply reset_forgets_run; [| by_evaluation].
  apply run_same_definition.
Defined.

Lemma history_shows_current_step self :
  directions_valid (transition_function self) →
  history_shows_current self →
  history_shows_current (final_state (step self)).
Proof.
  intros Hv (tp0 & earlier & Htp0 & Hh).
  destruct (step_ok self) as [| |tp tp' ? ? ? [X _] _ _
                              |tp tp' q' b d ? ? ? ? [X _] _
                              |tp tp' q' b d _ _ Htr HL HR _];
    simpl; simplify_eq.
  - by exists tp0, earlier.
  - exists tp', earlier. split; [done |]. simpl. rewrite Hh.
    rewrite (rendering_same 10 _ _ X). by destruct X as (_ & <- & _).
  - eexists tp', _. split; [done |]. simpl.
    rewrite (rendering_same 10 _ _ X). by destruct X as (_ & <- & _).
  - apply Hv in Htr. tauto.
Qed.

(** X16. The history ends with the current configuration: with a table
    built by [add_transition], after a [reset] and any number of calls of
    [step] the last entry of the history is the current state, the head
    position and the string that shows the current tape. *)
Theorem history_ends_with_current (self self0 : t) (input_string : string)
    (n : nat) :
  reset input_string self = Returns tt self0 →
  directions_valid (transition_function self) →
  history_shows_current (after_steps n self0).
Proof.
  intros E Hv.
  assert (history_shows_current self0 ∧
          directions_valid (transition_function self0)) as [H0 Hv0].
  { destruct (reset_valid input_string self (reset_returns _ _ _ E))
      as (tp' & E' & [X _] & _).
    rewrite E in E'. injection E' as ->. split; [| done].
    exists tp', []. split; [done |]. simpl.
    rewrite (rendering_same 10 _ _ X). by destruct X as (_ & <- & _). }
  clear E Hv. revert self0 H0 Hv0.
  induction n as [|n IH]; intros m Hm Hv; [done |].
  rewrite after_steps_S. apply IH.
  - by apply history_shows_current_step.
  - by destruct (step_same_definition m) as (_ & _ & _ & <- & _).
Qed.

Lemma history_ends_with_current_witness :
  history_shows_current (after_steps 4 (final_state (reset "01" balanced_01))).
Proof.
  apply (history_ends_with_current balanced_01 _ "01" 4).
  - vm_compute; reflexivity.
  - apply (build_table_valid balanced_01_transitions).
Defined.

Lemma head_within_step input_string self :
  directions_valid (transition_function self) →
  head_within input_string self →
  head_within input_string (final_state (step self)).
Proof.
  intros Hv (tp0 & Htp0 & Hc & Hb & Hh & Hl & Hr).
  unfold bounds_include_head in *.
  destruct (step_ok self) as [| |tp tp' ? ? ? [X _] _ _
                              |tp tp' q' b d ? ? ? Hd [X _] _
                              |tp tp' q' b d _ _ Htr HL HR _];
    simpl; simplify_eq.
  - exists tp0. unfold bounds_include_head. split_and!; try done; lia.
  - destruct X as (_ & Xh & Xl & Xr & _).
    exists tp'. unfold bounds_include_head. rewrite <- Xh, <- Xl, <- Xr. simpl.
    split_and!; try done; lia.
  - destruct X as (_ & Xh & Xl & Xr & _).
    exists tp'. unfold bounds_include_head. rewrite <- Xh, <- Xl, <- Xr. simpl.
    assert (delta_of d = -1 ∨ delta_of d = 1) as Hδ
      by (unfold delta_of; case_decide; auto).
    split_and!; try done; lia.
  - apply Hv in Htr. tauto.
Qed.

(** X17. One cell per step.  With a table built by [add_transition], after
    a [reset] on [input_string] and any number of calls of [step]: the
    bounds include the head; the head is at most [step_count] cells away
    from position 0; the leftmost bound is between [-step_count] and 0; the
    rightmost bound is between [max 0 (len - 1)] and that plus
    [step_count]. *)
Theorem head_stays_within_steps (self self0 : t) (input_string : string)
    (n : nat) :
  reset input_string self = Returns tt self0 →
  directions_valid (transition_function self) →
  head_within input_string (after_steps n self0).
Proof.
  intros E Hv.
  assert (head_within input_string self0 ∧
          directions_valid (transition_function self0)) as [H0 Hv0].
  { destruct (reset_valid input_string self (reset_returns _ _ _ E))
      as (tp & E' & [(_ & Hh & Hl & Hr & _) _] & _).
    rewrite E in E'. injection E' as ->. split; [| done].
    exists tp. unfold bounds_include_head. rewrite <- Hh, <- Hl, <- Hr. simpl.
    unfold len. destruct input_string; simpl; split_and!; try done; lia. }
  clear E Hv. revert self0 H0 Hv0.
  induction n as [|n IH]; intros m Hm Hv; [done |].
  rewrite after_steps_S. apply IH.
  - by apply head_within_step.
  - by destruct (step_same_definition m) as (_ & _ & _ & <- & _).
Qed.

Lemma head_stays_within_steps_witness :
  head_within "0011" (after_steps 5 (final_state (reset "0011" balanced_01))).
Proof.
  apply (head_stays_within_steps balanced_01 _ "0011" 5).
  - vm_compute; reflexivity.
  - apply (build_table_valid balanced_01_transitions).
Defined.

(** X19. [run] can be repeated: on an input string over the input
    alphabet, what [run] returns or raises, and the machine it leaves,
    depend on the definition of the machine only.  A machine that has
    already run, on any input, runs as the machine just constructed. *)
Theorem run_is_repeatable (a b : t) (input_string : string) (max_steps : Z) :
  same_definition a b →
  Forall (λ c, c ∈ input_alphabet a) (chars input_string) →
  run input_string max_steps a = run input_string max_steps b.
Proof.
  intros Hab Hv. unfold run, bind. by rewrite (reset_same_outcome a b).
Qed.

Lemma run_is_repeatable_witness :
  run "01" 9 balanced_01 = run "01" 9 (final_state (run "0011" 7 balanced_01)).
Proof.
  apply run_is_repeatable; [| by_evaluation].
  apply run_same_definition.
Defined.

(** ** The machine for balanced strings *)

Lemma for_each_add_inserts entries table :
  Forall (λ e, e.2 = "L" ∨ e.2 = "R") entries →
  for_each entries (λ '(q, a, q', b, d),
    TransitionFunction.add_transition q a q' b d) table =
  Returns tt
    (TransitionFunction.mk
       (foldl (λ m '(q, a, q', b, d), <[(q, a) := (q', b, d)]> m)
          (TransitionFunction.transitions table) entries)).
Proof.
  revert table. induction entries as [|[[[[q a] q'] b] d] entries IH];
    intros table Hv.
  - by destruct table.
  - apply Forall_cons in Hv as [Hd Hv]. simpl in Hd.
    simpl. unfold bind at 1. rewrite add_transition_valid by done.
    by rewrite IH.
Qed.

Lemma balanced_01_table :
  TransitionFunction.transitions (transition_function balanced_01)
    = table_of balanced_01_transitions.
Proof.
  change (transition_function balanced_01)
    with (final_state (build_table balanced_01_transitions)).
  unfold build_table.
  rewrite for_each_add_inserts; [done |].
  unfold balanced_01_transitions. repeat (constructor; [simpl; tauto |]).
  constructor.
Qed.

(** No entry for ["q1"] and a symbol other than ["0"], ["1"], ["Y"], ["_"]. *)
Lemma balanced_01_q1_other v :
  v ≠ "0" → v ≠ "1" → v ≠ "Y" → v ≠ "_" →
  TransitionFunction.get_transition (transition_function balanced_01) "q1" v = None.
Proof.
  intros ? ? ? ?. unfold TransitionFunction.get_transition.
  rewrite balanced_01_table. unfold table_of, balanced_01_transitions. simpl.
  repeat (rewrite lookup_insert_ne by (intros [= ?]; congruence)).
  apply lookup_empty.
Qed.

(** No entry for ["q_reject"]. *)
Lemma balanced_01_q_reject v :
  TransitionFunction.get_transition (transition_function balanced_01)
    "q_reject" v = None.
Proof.
  unfold TransitionFunction.get_transition.
  rewrite balanced_01_table. unfold table_of, balanced_01_transitions. simpl.
  repeat (rewrite lookup_insert_ne by (intros [= ?]; congruence)).
  apply lookup_empty.
Qed.

Lemma fired_view tp tp' b δ :
  extends (fired_tape tp b δ) tp' →
  Tape.head_position tp' = Tape.head_position tp + δ ∧
  ∀ i, Tape.cell tp' i =
         if decide (i = Tape.head_position tp) then b else Tape.cell tp i.
Proof.
  intros [(_ & Hh & _ & _ & Hc) _]. split; [by rewrite <- Hh |].
  intros i. rewrite <- Hc. unfold Tape.cell, fired_tape. simpl.
  case_decide as Hi.
  - subst i. by rewrite lookup_insert_eq.
  - by rewrite lookup_insert_ne.
Qed.

Lemma balanced_config_same tp tp' q :
  same tp tp' → balanced_config tp q → balanced_config tp' q.
Proof.
  intros (_ & Hh & _ & _ & Hc) Hcfg.
  destruct Hcfg; [apply at_start | apply stuck_at_start | apply seeking_one
                  | apply returning | apply rejected];
    rewrite <- ?Hh, <- ?Hc; try done.
  - intros i Hi. rewrite <- Hc. auto.
  - intros i Hi. rewrite <- Hc. auto.
Qed.

Lemma on_path_not_accepting self :
  on_rejecting_path self → current_state self ∉ accept_states self.
Proof.
  intros (_ & -> & tp & _ & Hcfg). destruct Hcfg; by_evaluation.
Qed.

Lemma on_path_stuck self tp :
  on_rejecting_path self → tape self = Some tp →
  TransitionFunction.get_transition (transition_function balanced_01)
    (current_state self) (Tape.cell tp (Tape.head_position tp)) = None →
  on_rejecting_path (final_state (step self)).
Proof.
  intros Hpath Htp Hno. pose proof (on_path_not_accepting _ Hpath) as Hna.
  destruct Hpath as (Htf & Hacc & tp0 & Htp0 & Hcfg). simplify_eq.
  rewrite <- Htf in Hno.
  destruct (step_stuck self tp0 Htp0 Hna Hno) as (tp' & -> & [X _] & _).
  simpl. split_and!; [done | done |].
  exists tp'. split; [done |]. simpl. by eapply balanced_config_same.
Qed.

Lemma on_path_fire self tp q' b d :
  on_rejecting_path self → tape self = Some tp →
  TransitionFunction.get_transition (transition_function balanced_01)
    (current_state self) (Tape.cell tp (Tape.head_position tp))
    = Some (q', b, d) →
  (∀ tp', Tape.head_position tp' = Tape.head_position tp + delta_of d →
          (∀ i, Tape.cell tp' i =
                  if decide (i = Tape.head_position tp) then b
                  else Tape.cell tp i) →
          balanced_config tp' q') →
  on_rejecting_path (final_state (step self)).
Proof.
  intros Hpath Htp Htr Hnext.
  pose proof (on_path_not_accepting _ Hpath) as Hna.
  destruct Hpath as (Htf & Hacc & tp0 & Htp0 & Hcfg). simplify_eq.
  rewrite <- Htf in Htr.
  assert (d = "L" ∨ d = "R") as Hd.
  { eapply (build_table_valid balanced_01_transitions).
    rewrite Htf in Htr. exact Htr. }
  destruct (step_fires self tp0 _ _ _ Htp0 Hna Htr Hd) as (tp' & -> & X & _).
  apply fired_view in X as [Hh Hc].
  simpl. split_and!; [done | done |].
  exists tp'. split; [done |]. simpl. by apply Hnext.
Qed.

Lemma on_path_step self :
  on_rejecting_path self → on_rejecting_path (final_state (step self)).
Proof.
  intros Hpath. pose proof Hpath as (_ & _ & tp & Htp & Hcfg).
  remember (current_state self) as q eqn:Hq.
  destruct Hcfg as [Hh H0 Hm|Hh H0|Hh H0 Hm Hbetween|Hh H0 Hm Hbetween|].
  - (* q0 on a first cell holding 0 *)
    apply (on_path_fire self tp "q1" "X" "R"); [done | done | |].
    { rewrite <- Hq, Hh, H0. table_entry. }
    intros tp' Hh' Hc'. unfold delta_of in Hh'. simpl in Hh'.
    apply seeking_one; [lia | | |].
    + rewrite Hc', Hh. by rewrite decide_True.
    + rewrite Hc', Hh. by rewrite decide_False.
    + intros i Hi. lia.
  - (* q0 on a first cell holding 1 or X *)
    apply (on_path_stuck self tp); [done | done |].
    rewrite <- Hq, Hh. destruct H0 as [-> | ->]; table_entry.
  - (* q1 *)
    set (h := Tape.head_position tp) in *.
    destruct (decide (Tape.cell tp h = "0")) as [Hv|Hn0];
      [|destruct (decide (Tape.cell tp h = "1")) as [Hv|Hn1];
        [|destruct (decide (Tape.cell tp h = "Y")) as [Hv|HnY];
          [|destruct (decide (Tape.cell tp h = "_")) as [Hv|Hnb]]]].
    + apply (on_path_fire self tp "q1" "0" "R"); [done | done | |].
      { rewrite <- Hq. fold h. rewrite Hv. table_entry. }
      intros tp' Hh' Hc'. unfold delta_of in Hh'. simpl in Hh'. fold h in Hh', Hc'.
      apply seeking_one; [lia | | |].
      * rewrite Hc'. by rewrite decide_False by lia.
      * rewrite Hc'. by rewrite decide_False by lia.
      * intros i Hi. rewrite Hc'. case_decide; [by left |]. apply Hbetween. lia.
    + apply (on_path_fire self tp "q2" "Y" "L"); [done | done | |].
      { rewrite <- Hq. fold h. rewrite Hv. table_entry. }
      intros tp' Hh' Hc'. unfold delta_of in Hh'. simpl in Hh'. fold h in Hh', Hc'.
      apply returning; [lia | | |].
      * rewrite Hc'. by rewrite decide_False by lia.
      * rewrite Hc'. by rewrite decide_False by lia.
      * intros i Hi. rewrite Hc'. rewrite decide_False by lia. apply Hbetween. lia.
    + apply (on_path_fire self tp "q1" "Y" "R"); [done | done | |].
      { rewrite <- Hq. fold h. rewrite Hv. table_entry. }
      intros tp' Hh' Hc'. unfold delta_of in Hh'. simpl in Hh'. fold h in Hh', Hc'.
      apply seeking_one; [lia | | |].
      * rewrite Hc'. by rewrite decide_False by lia.
      * rewrite Hc'. by rewrite decide_False by lia.
      * intros i Hi. rewrite Hc'. case_decide; [by right |]. apply Hbetween. lia.
    + apply (on_path_fire self tp "q_reject" "_" "R"); [done | done | |].
      { rewrite <- Hq. fold h. rewrite Hv. table_entry. }
      intros tp' _ _. apply rejected.
    + apply (on_path_stuck self tp); [done | done |].
      rewrite <- Hq. fold h. by apply balanced_01_q1_other.
  - (* q2 *)
    set (h := Tape.head_position tp) in *.
    destruct (decide (h = -1)) as [Hneg|Hneg];
      [|destruct (decide (h = 0)) as [Hzero|Hzero]].
    + apply (on_path_fire self tp "q0" "_" "R"); [done | done | |].
      { rewrite <- Hq. fold h. rewrite Hneg, Hm. table_entry. }
      intros tp' Hh' Hc'. unfold delta_of in Hh'. simpl in Hh'. fold h in Hh', Hc'.
      apply stuck_at_start; [lia |]. right.
      rewrite Hc'. by rewrite decide_False by lia.
    + apply (on_path_fire self tp "q2" "X" "L"); [done | done | |].
      { rewrite <- Hq. fold h. rewrite Hzero, H0. table_entry. }
      intros tp' Hh' Hc'. unfold delta_of in Hh'. simpl in Hh'. fold h in Hh', Hc'.
      apply returning; [lia | | |].
      * rewrite Hc'. by rewrite decide_True by lia.
      * rewrite Hc'. by rewrite decide_False by lia.
      * intros i Hi. lia.
    + destruct (Hbetween h ltac:(lia)) as [Hv|Hv].
      * apply (on_path_fire self tp "q2" "0" "L"); [done | done | |].
        { rewrite <- Hq. fold h. rewrite Hv. table_entry. }
        intros tp' Hh' Hc'. unfold delta_of in Hh'. simpl in Hh'. fold h in Hh', Hc'.
        apply returning; [lia | | |].
        -- rewrite Hc'. by rewrite decide_False by lia.
        -- rewrite Hc'. by rewrite decide_False by lia.
        -- intros i Hi. rewrite Hc'. rewrite decide_False by lia.
           apply Hbetween. lia.
      * apply (on_path_fire self tp "q2" "Y" "L"); [done | done | |].
        { rewrite <- Hq. fold h. rewrite Hv. table_entry. }
        intros tp' Hh' Hc'. unfold delta_of in Hh'. simpl in Hh'. fold h in Hh', Hc'.
        apply returning; [lia | | |].
        -- rewrite Hc'. by rewrite decide_False by lia.
        -- rewrite Hc'. by rewrite decide_False by lia.
        -- intros i Hi. rewrite Hc'. rewrite decide_False by lia.
           apply Hbetween. lia.
  - (* q_reject *)
    apply (on_path_stuck self tp); [done | done |].
    rewrite <- Hq. apply balanced_01_q_reject.
Qed.

Lemma on_path_after_steps n self :
  on_rejecting_path self → on_rejecting_path (after_steps n self).
Proof.
  revert self. induction n as [|n IH]; intros self Hpath; [done |].
  rewrite after_steps_S. by apply IH, on_path_step.
Qed.

Lemma on_path_after_reset (input_string : string) (self0 : t) :
  input_string ≠ "" →
  reset input_string balanced_01 = Returns tt self0 →
  on_rejecting_path self0.
Proof.
  intros Hne E. destruct input_string as [|c rest]; [by destruct Hne |].
  clear Hne. pose proof (reset_returns _ _ _ E) as Hv.
  destruct (reset_valid _ _ Hv) as (tp & E' & [(_ & Hh & _ & _ & Hc) _] & _).
  rewrite E in E'. injection E' as ->. clear E.
  apply Forall_cons in Hv as [Hc0 _].
  assert (String c "" = "0" ∨ String c "" = "1") as Hfirst.
  { change (String c "" ∈ ({[ "0"; "1" ]} : gset string)) in Hc0.
    apply elem_of_union in Hc0 as [Hc0|Hc0]; apply elem_of_singleton in Hc0;
      auto. }
  clear Hc0.
  assert (Tape.cell tp 0 = String c "") as H0.
  { rewrite <- Hc, cell_init.
    rewrite decide_True by (unfold len, String.length; lia).
    reflexivity. }
  assert (Tape.cell tp (-1) = "_") as Hm.
  { rewrite <- Hc, cell_init. rewrite decide_False by lia. reflexivity. }
  split_and!; [reflexivity | reflexivity |].
  exists tp. split; [reflexivity |].
  change (balanced_config tp "q0").
  destruct Hfirst as [Hf|Hf]; rewrite Hf in H0.
  - apply at_start; [by rewrite <- Hh | done | done].
  - apply stuck_at_start; [by rewrite <- Hh | by left].
Qed.

Lemma after_steps_same_definition n self :
  same_definition self (after_steps n self).
Proof.
  revert self. induction n as [|n IH]; intros self;
    [apply same_definition_refl |].
  rewrite after_steps_S.
  eapply same_definition_trans; [apply step_same_definition | apply IH].
Qed.

(** The run on the empty string: two steps, then halted in ["q_accept"]. *)
Lemma balanced_01_on_empty (self0 : t) :
  reset "" balanced_01 = Returns tt self0 →
  let accepting self :=
    bool_decide (current_state self ∈ accept_states self) in
  step_count self0 = 0 ∧ accepting self0 = false ∧
  step_count (after_steps 1 self0) = 1 ∧
  accepting (after_steps 1 self0) = false ∧
  step_count (after_steps 2 self0) = 2 ∧
  accepting (after_steps 2 self0) = true ∧
  step (after_steps 2 self0) = Returns false (after_steps 2 self0).
Proof.
  intros E.
  assert (self0 = final_state (reset "" balanced_01)) as -> by (by rewrite E).
  clear E. intros accepting. subst accepting. split_and!; table_entry.
Qed.

(** X20. The machine of [create_balanced_01_machine] accepts the empty
    string only.  On every input string over its input alphabet [run]
    returns, for every budget; the result is the accepting one exactly when
    the string is empty and the budget is at least 2.  So ["01"], which
    holds as many 0s as 1s, is rejected. *)
Theorem balanced_01_accepts_only_empty (input_string : string) (max_steps : Z) :
  Forall (λ c, c ∈ input_alphabet balanced_01) (chars input_string) →
  ∃ calls self',
    run input_string max_steps balanced_01 = Returns calls self' ∧
    (get_result self' = Returns "Acepta" self' ↔
     input_string = "" ∧ 2 ≤ max_steps) ∧
    (get_result self' = Returns "Rechaza" self' ↔
     ¬ (input_string = "" ∧ 2 ≤ max_steps)).
Proof.
  intros Hv.
  destruct (run_returns input_string max_steps balanced_01 Hv
              (build_table_valid balanced_01_transitions))
    as (calls & self' & E).
  exists calls, self'. split; [done |].
  destruct (run_returns_after_steps _ _ _ _ _ E) as (self0 & Er & -> & Hexit).
  clear E. rewrite get_result_spec.
  destruct (decide (input_string = "")) as [->|Hne].
  - destruct (balanced_01_on_empty self0 Er)
      as (Hc0 & Ha0 & Hc1 & Ha1 & Hc2 & Ha2 & Hhalt).
    clear Er Hv.
    assert (∀ k, after_steps (2 + k) self0 = after_steps 2 self0) as Hstable.
    { intros k. rewrite after_steps_add.
      induction k as [|k IH]; [done |]. by rewrite after_steps_S, Hhalt. }
    destruct calls as [|[|[|k]]].
    + change (after_steps 0 self0) with self0 in *. rewrite Ha0.
      destruct Hexit as [? ? ?|? ? ?]; [| lia].
      split; split; try done; [intros [_ ?] | intros _ [_ ?]]; lia.
    + rewrite Ha1.
      destruct Hexit as [? ? ?|? ? ?]; [| lia].
      split; split; try done; [intros [_ ?] | intros _ [_ ?]]; lia.
    + rewrite Ha2.
      destruct Hexit as [? ? Hmax|? ? ?]; [| lia].
      specialize (Hmax ltac:(lia)).
      split; split; try done;
        [intros _ | intros Hn; destruct Hn]; (split; [done | lia]).
    + change (S (S (S k))) with (2 + S k)%nat in *.
      rewrite Hstable in *. rewrite Ha2.
      destruct Hexit as [? ? ?|? ? ?]; [lia |].
      split; split; try done;
        [intros _ | intros Hn; destruct Hn]; (split; [done | lia]).
  - pose proof (on_path_after_steps calls self0
                  (on_path_after_reset _ _ Hne Er)) as Hpath.
    apply on_path_not_accepting in Hpath.
    rewrite bool_decide_false by done.
    split; split; try done; tauto.
Qed.

Lemma balanced_01_accepts_only_empty_witness :
  ∃ calls self',
    run "01" 10000 balanced_01 = Returns calls self' ∧
    get_result self' = Returns "Rechaza" self'.
Proof.
  destruct (balanced_01_accepts_only_empty "01" 10000)
    as (calls & self' & E & _ & Hrej); [by_evaluation |].
  exists calls, self'. split; [done |].
  apply Hrej. by intros [? _].
Defined.
